(** * vioreto/compiler: tokenizer and parser, shallow embedding

    The development follows [src/tokenizer.ts] and [src/parser.ts].

    - A JavaScript string is a sequence of UTF-16 code units; it is modelled
      as [list N].  A "character" is, as in JavaScript, a string of length
      one ([input[i]]), and [undefined ?? ""] is the empty string.
    - Objects that the code mutates through several references (the token
      that [lastToken] points at, the collectors on the driver's stack) live
      in an explicit store and are addressed by their position in it.
    - [throw] is an error result; the two [while] loops take fuel, and the
      fuel the entry points pass is shown to be enough. *)

From Stdlib Require Import NArith Ascii String.
From stdpp Require Import base tactics numbers option list.

Open Scope nat_scope.

(** ** JavaScript strings *)

Abbreviation jsstring := (list N).

(** The code units of an ASCII literal. *)
Definition js (s : string) : jsstring :=
  N_of_ascii <$> list_ascii_of_string s.

(** [str[index] ?? ""]: the one-character string at [index], or [""]. *)
Definition charAt (str : jsstring) (index : nat) : jsstring :=
  match str !! index with
  | Some c => [c]
  | None => []
  end.

(** [s.charCodeAt(0)]; [None] stands for [NaN]. *)
Definition charCodeAt0 (s : jsstring) : option N := head s.

(** [Array.prototype.includes] on strings. *)
Definition includes (l : list jsstring) (s : jsstring) : bool :=
  bool_decide (s ∈ l).

(** * The tokenizer ([src/tokenizer.ts]) *)

Module Tokenizer.

Definition lineFeed : N := 10.
Definition carriageReturn : N := 13.
Definition space : N := 32.

Definition isNewLine (char : jsstring) : bool :=
  match charCodeAt0 char with
  | Some code => (code =? lineFeed)%N || (code =? carriageReturn)%N
  | None => false
  end.

Definition isWhitespace (char : jsstring) : bool :=
  match charCodeAt0 char with
  | Some code => (code =? space)%N
  | None => false
  end.

Inductive TokenType := Whitespace | Word | Keyword | Sign.

#[export] Instance TokenType_eq_dec : EqDecision TokenType.
Proof. solve_decision. Defined.

Record Token := mkToken {
  type : TokenType;
  value : jsstring;
  start : nat;
  end_ : nat;
  line : nat;
  col : nat;
}.

#[export] Instance Token_eq_dec : EqDecision Token.
Proof. solve_decision. Defined.

(** [Object.values(Sign)] *)
Definition signList : list jsstring :=
  [js "("; js ")"; js "{"; js "}"; js "$"; js "`"; [34%N]; js ":"; js "#"; js "/"].

(** [Object.values(Keyword)] *)
Definition KeywordList : list jsstring :=
  [js "alias"; js "if"; js "else"; js "end"; js "branch"; js "goto"].

Definition isKeyword (token : jsstring) : bool := includes KeywordList token.
Definition isSign (char : jsstring) : bool := includes signList char.

Definition getSafeString (str : jsstring) (index : nat) : jsstring :=
  charAt str index.

(** The fields of the [Tokenizer] object.  [lastToken] is a reference to an
    element of [tokenList] (the token object is pushed on the array and kept
    in [lastToken] at the same time), so it is modelled as the position of
    that element; [None] is [undefined]. *)
Record State := mkState {
  input : jsstring;
  index : nat;
  position_line : nat;
  position_col : nat;
  lastToken : option nat;
  tokenList : list Token;
}.

(** The object [this.lastToken] refers to. *)
Definition lastTokenObj (this : State) : option Token :=
  k ← lastToken this; tokenList this !! k.

Definition extend (char : jsstring) (t : Token) : Token :=
  mkToken (type t) (value t ++ char) (start t) (end_ t + 1) (line t) (col t).

Definition retag (t : Token) : Token :=
  mkToken Keyword (value t) (start t) (end_ t) (line t) (col t).

(** Assignment through the [lastToken] reference. *)
Definition updLast (f : Token → Token) (this : State) : list Token :=
  match lastToken this with
  | Some k => alter f k (tokenList this)
  | None => tokenList this
  end.

Definition pushToken (ty : TokenType) (char : jsstring) (this : State) : State :=
  let merge :=
    match lastTokenObj this with
    | Some last =>
        bool_decide (type last = ty) &&
        bool_decide (type last ∈ [Whitespace; Word])
    | None => false
    end in
  if merge then
    mkState (input this) (index this + 1)
      (position_line this) (position_col this)
      (lastToken this) (updLast (extend char) this)
  else
    let promoted :=
      match lastTokenObj this with
      | Some last =>
          if isKeyword (value last) then updLast retag this else tokenList this
      | None => tokenList this
      end in
    let tok := mkToken ty char (index this) (index this + 1)
                 (position_line this) (position_col this) in
    mkState (input this) (index this + 1)
      (position_line this) (position_col this + 1)
      (Some (length promoted)) (promoted ++ [tok]).

Definition pushNewLine (char : jsstring) (this : State) : State :=
  let next := getSafeString (input this) (index this + 1) in
  let index1 :=
    if negb (bool_decide (char = next)) && isNewLine next
    then index this + 1 else index this in
  mkState (input this) (index1 + 1) (position_line this + 1) 0
    None (tokenList this).

(** One iteration of the loop in [run].  The loop runs it only while
    [index < input.length], so [input[index]] is a character. *)
Definition step (this : State) : State :=
  let char := charAt (input this) (index this) in
  if isNewLine char then pushNewLine char this
  else if isWhitespace char then pushToken Whitespace char this
  else if isSign char then pushToken Sign char this
  else pushToken Word char this.

(** [while (this.index < input.length)]; [None] when the fuel runs out. *)
Fixpoint run_loop (fuel : nat) (this : State) : option State :=
  match fuel with
  | 0 => None
  | S fuel' =>
      if bool_decide (index this < length (input this))
      then run_loop fuel' (step this)
      else Some this
  end.

(** [new Tokenizer()] with [this.input = input]. *)
Definition init (inp : jsstring) : State := mkState inp 0 0 0 None [].

(** The state of the tokenizer object when [run] returns. *)
Definition run (inp : jsstring) : option State :=
  run_loop (S (length inp)) (init inp).

Definition tokenizer (inp : jsstring) : option (list Token) :=
  tokenList <$> run inp.

End Tokenizer.

(** * The parser ([src/parser.ts]) *)

(** ** Exceptions *)

(** [Error] is the [throw new Error()] of [Collector.next]; [TypeError] is
    what JavaScript raises on reading a property of [undefined] or calling
    [undefined]. *)
Inductive Exn := Error | TypeError.

Inductive Result (A : Type) :=
| Ok (a : A)
| Throw (e : Exn).
Arguments Ok {A} a.
Arguments Throw {A} e.

#[export] Instance Result_ret : MRet Result := λ A a, Ok a.
#[export] Instance Result_bind : MBind Result := λ A B f m,
  match m with
  | Ok a => f a
  | Throw e => Throw e
  end.
#[export] Instance Result_fmap : FMap Result := λ A B f m,
  match m with
  | Ok a => Ok (f a)
  | Throw e => Throw e
  end.

(** ** AST nodes *)

Record StringLiteral := mkStringLiteral { StringLiteral_value : jsstring }.
Record AliasLiteral := mkAliasLiteral { AliasLiteral_value : jsstring }.
Record PackedStatement := mkPackedStatement {
  PackedStatement_value : jsstring;
  PackedStatement_body : StringLiteral;
}.
Record AliasStatement := mkAliasStatement {
  AliasStatement_body : AliasLiteral * PackedStatement;
}.

(** The nodes a collector can own. *)
Inductive Node :=
| AliasStatementNode (n : AliasStatement)
| StringLiteralNode (n : StringLiteral).

Record Program := mkProgram { body : list Node }.

(** ** Collectors *)

Module Collector.

Import Tokenizer.

(** The fields declared by the base class. *)
Record Fields := mkFields {
  tokenList : list Token;
  index : nat;
  complete : bool;
  skipWhitespace : bool;
}.

(** The two concrete classes, each with its own [node]. *)
Inductive Collector :=
| AliasStatementCollector (f : Fields) (node : AliasStatement)
| StringLiteralCollector (f : Fields) (node : StringLiteral).

Definition fields (c : Collector) : Fields :=
  match c with
  | AliasStatementCollector f _ => f
  | StringLiteralCollector f _ => f
  end.

Definition withFields (f : Fields) (c : Collector) : Collector :=
  match c with
  | AliasStatementCollector _ n => AliasStatementCollector f n
  | StringLiteralCollector _ n => StringLiteralCollector f n
  end.

Definition node (c : Collector) : Node :=
  match c with
  | AliasStatementCollector _ n => AliasStatementNode n
  | StringLiteralCollector _ n => StringLiteralNode n
  end.

(** Field initialisers of the base class. *)
Definition newFields : Fields := mkFields [] 0 false true.

Definition newStringLiteralCollector : Collector :=
  StringLiteralCollector newFields (mkStringLiteral []).

Definition newAliasStatementCollector : Collector :=
  AliasStatementCollector newFields
    (mkAliasStatement
       (mkAliasLiteral [], mkPackedStatement [] (mkStringLiteral []))).

(** A rule returns a boolean or a collector. *)
Inductive RuleResult :=
| Bool (b : bool)
| Spawn (c : Collector).

Definition CollectorRule := Token → RuleResult.

Definition valueIs (s : jsstring) : CollectorRule :=
  λ t, Bool (bool_decide (value t = s)).
Definition typeIs (ty : TokenType) : CollectorRule :=
  λ t, Bool (bool_decide (type t = ty)).

Definition ruleList (c : Collector) : list CollectorRule :=
  match c with
  | AliasStatementCollector _ _ =>
      [ valueIs (js "alias");
        typeIs Word;
        valueIs (js "#");
        typeIs Word;
        valueIs (js "(");
        (λ _, Spawn newStringLiteralCollector);
        valueIs (js ")") ]
  | StringLiteralCollector _ _ =>
      [ valueIs [34%N];
        typeIs Word;
        valueIs [34%N] ]
  end.

(** The object store: collectors are addressed by their position. *)
Abbreviation Heap := (list Collector).
Abbreviation addr := nat.

(** [this.pushCollector(c)]; [c] is the collector object handed over. *)
Definition pushCollector (this c : Collector) : Collector :=
  match this with
  | AliasStatementCollector f n =>
      match c with
      | StringLiteralCollector _ cn =>
          let '(alias, packed) := AliasStatement_body n in
          AliasStatementCollector f
            (mkAliasStatement
               (alias,
                mkPackedStatement (PackedStatement_value packed)
                  (mkStringLiteral (StringLiteral_value cn))))
      | _ => this
      end
  | StringLiteralCollector _ _ => this
  end.

Definition compose (this : Collector) : Result Collector :=
  match this with
  | AliasStatementCollector f n =>
      let words :=
        filter (λ t, type t = Word) (tokenList f) in
      let '(alias, packed) := AliasStatement_body n in
      match words !! 0 with
      | None => Throw TypeError
      | Some aliasValue =>
          match words !! 1 with
          | None => Throw TypeError
          | Some packedValue =>
              Ok (AliasStatementCollector f
                    (mkAliasStatement
                       (mkAliasLiteral (value aliasValue),
                        mkPackedStatement (value packedValue)
                          (PackedStatement_body packed))))
          end
      end
  | StringLiteralCollector f n =>
      match tokenList f !! 1 with
      | None => Throw TypeError
      | Some t => Ok (StringLiteralCollector f (mkStringLiteral (value t)))
      end
  end.

(** [this.next(token)] for the collector at address [this] of the store.
    The result is the new store and the value returned: [Some a] for a
    collector (allocated at [a]), [None] for [undefined]. *)
Definition next (h : Heap) (this : addr) (token : Token + addr)
  : Result (Heap * option addr) :=
  match h !! this with
  | None => Throw TypeError
  | Some self =>
      let f := fields self in
      match token with
      | inr c =>
          match h !! c with
          | None => Throw TypeError
          | Some child =>
              let self1 := pushCollector self child in
              let f1 := fields self1 in
              let self2 :=
                withFields
                  (mkFields (tokenList f1) (index f1 + 1) (complete f1)
                     (skipWhitespace f1)) self1 in
              Ok (<[this := self2]> h, None)
          end
      | inl token =>
          if skipWhitespace f && bool_decide (type token = Whitespace)
          then Ok (h, None)
          else
            match ruleList self !! index f with
            | None => Throw TypeError
            | Some rule =>
                match rule token with
                | Spawn m => Ok (h ++ [m], Some (length h))
                | Bool false => Throw Error
                | Bool true =>
                    let complete1 :=
                      if bool_decide (index f = length (ruleList self) - 1)
                      then true else complete f in
                    let self1 :=
                      withFields
                        (mkFields (tokenList f ++ [token]) (index f + 1)
                           complete1 (skipWhitespace f)) self in
                    Ok (<[this := self1]> h, None)
                end
            end
      end
  end.

End Collector.

(** ** The driver *)

Module Parser.

Import Tokenizer.
Import Collector(Heap, addr).

(** The fields of the [Parser] object, the local variables of [run], and the
    store of collector objects.  A node is owned by exactly one collector, so
    a reference to a node is the address of its collector; [ast_body] is
    [this.ast.body]. *)
Record State := mkState {
  index : nat;
  tokenList : list Token;
  ast_body : list addr;
  collectorStack : list addr;
  node : option addr;
  collector : option addr;
  heap : Heap;
}.

(** [collectorStack.pop()] *)
Definition pop (s : list addr) : list addr := removelast s.
(** [collectorStack.at(-1)] *)
Definition at_last (s : list addr) : option addr := last s.

(** The body of the [while] loop of [run]. *)
Definition iteration (this : State) : Result State :=
  match tokenList this !! index this with
  | None => Throw TypeError
  | Some token =>
      let index1 := index this + 1 in
      match node this, collector this with
      | Some node0, Some collector0 =>
          '(h1, newCollector) ← Collector.next (heap this) collector0 (inl token);
          let '(collector1, stack1, node1, index2) :=
            match newCollector with
            | Some c => (c, collectorStack this ++ [c], c, index1 - 1)
            | None => (collector0, collectorStack this, node0, index1)
            end in
          match h1 !! collector1 with
          | None => Throw TypeError
          | Some obj =>
              if Collector.complete (Collector.fields obj) then
                obj1 ← Collector.compose obj;
                let h2 := <[collector1 := obj1]> h1 in
                let stack2 := pop stack1 in
                match at_last stack2 with
                | Some lst =>
                    '(h3, _) ← Collector.next h2 lst (inr collector1);
                    Ok (mkState index2 (tokenList this) (ast_body this)
                          stack2 (Some lst) (Some lst) h3)
                | None =>
                    Ok (mkState index2 (tokenList this)
                          (ast_body this ++ [node1]) stack2 None None h2)
                end
              else
                Ok (mkState index2 (tokenList this) (ast_body this)
                      stack1 (Some node1) (Some collector1) h1)
          end
      | _, _ =>
          if bool_decide (value token = js "alias") then
            let c := length (heap this) in
            Ok (mkState (index1 - 1) (tokenList this) (ast_body this)
                  (collectorStack this ++ [c]) (Some c) (Some c)
                  (heap this ++ [Collector.newAliasStatementCollector]))
          else
            Ok (mkState index1 (tokenList this) (ast_body this)
                  (collectorStack this) (node this) (collector this)
                  (heap this))
      end
  end.

(** [while (this.index < tokenList.length)]; [None] when the fuel runs
    out, [Some (Throw e)] when an iteration throws. *)
Fixpoint run_loop (fuel : nat) (this : State) : option (Result State) :=
  match fuel with
  | 0 => None
  | S fuel' =>
      if bool_decide (index this < length (tokenList this)) then
        match iteration this with
        | Ok this' => run_loop fuel' this'
        | Throw e => Some (Throw e)
        end
      else Some (Ok this)
  end.

(** [new Parser()] with [this.tokenList = tokenList]. *)
Definition init (tokens : list Token) : State :=
  mkState 0 tokens [] [] None None [].

(** [this.ast] as a value: the nodes its body refers to. *)
Definition ast (this : State) : Program :=
  mkProgram (omap (λ a, Collector.node <$> heap this !! a) (ast_body this)).

(** The state in which [run] leaves the loop. *)
Definition run (tokens : list Token) : option (Result State) :=
  run_loop (2 * length tokens + 2) (init tokens).

End Parser.

(** [parser(tokenList)]: [Some (Ok p)] when it returns [p],
    [Some (Throw e)] when it throws. *)
Definition parser (tokenList : list Tokenizer.Token) : option (Result Program) :=
  fmap (M:=Result) Parser.ast <$> Parser.run tokenList.

(** [parser(tokenizer(input))] *)
Definition parse_source (inp : jsstring) : option (Result Program) :=
  toks ← Tokenizer.tokenizer inp; parser toks.

(** * Notions used to state the properties *)

Module TokenizerSpec.

Import Tokenizer.

(** The kind [run] gives a character: [None] for a line-break character,
    otherwise the first argument of the [pushToken] call it makes. *)
Definition charKind (c : N) : option TokenType :=
  if isNewLine [c] then None
  else if isWhitespace [c] then Some Whitespace
  else if isSign [c] then Some Sign
  else Some Word.

(** The kind a token was created with: [Keyword] is only ever the result of
    retagging a [Word]. *)
Definition base (ty : TokenType) : TokenType :=
  match ty with
  | Keyword => Word
  | _ => ty
  end.

(** Position [i] of the input lies in the span of [t]. *)
Definition covers (t : Token) (i : nat) : Prop := start t ≤ i < end_ t.

(** The text of [t] is the slice of the input between its offsets. *)
Definition slice (inp : jsstring) (t : Token) : Prop :=
  value t = take (end_ t - start t) (drop (start t) inp).

(** The input without LF and CR. *)
Definition stripNewLines (s : jsstring) : jsstring :=
  filter (λ c, isNewLine [c] = false) s.

(** Line breaks as [pushNewLine] counts them: a line-break character,
    together with the next character when that is the other line-break
    character. *)
Fixpoint lineBreaks (s : jsstring) : nat :=
  match s with
  | [] => 0
  | c :: rest =>
      if isNewLine [c] then
        match rest with
        | n :: rest' =>
            if negb (bool_decide (c = n)) && isNewLine [n]
            then S (lineBreaks rest')
            else S (lineBreaks rest)
        | [] => 1
        end
      else lineBreaks rest
  end.

(** Line breaks in the words of the specification: a lone LF, or a CR
    optionally followed by LF. *)
Fixpoint specLineBreaks (s : jsstring) : nat :=
  match s with
  | [] => 0
  | c :: rest =>
      if bool_decide (c = lineFeed) then S (specLineBreaks rest)
      else if bool_decide (c = carriageReturn) then
        match rest with
        | n :: rest' =>
            if bool_decide (n = lineFeed)
            then S (specLineBreaks rest')
            else S (specLineBreaks rest)
        | [] => 1
        end
      else specLineBreaks rest
  end.

(** ** What the loop of [run] maintains *)

(** What the loop maintains about one token, at cursor [idx]. *)
Record token_ok (inp : jsstring) (idx : nat) (t : Token) : Prop := {
  ok_span : start t < end_ t ≤ idx;
  ok_slice : slice inp t;
  ok_kind : ∀ i c, covers t i → inp !! i = Some c → charKind c = Some (base (type t));
  ok_sign : type t = Sign → end_ t = start t + 1;
  ok_keyword :
    type t = Keyword ↔
    isKeyword (value t) = true ∧ end_ t < idx ∧
    isNewLine (charAt inp (end_ t)) = false;
  ok_start : ∀ p c, start t = S p → inp !! p = Some c →
    charKind c = Some (base (type t)) → base (type t) = Sign;
}.

(** Tokens appear in the order of their spans, which do not overlap. *)
Definition ordered (l : list Token) : Prop :=
  ∀ j k t1 t2, j < k → l !! j = Some t1 → l !! k = Some t2 →
    end_ t1 ≤ start t2.

Record Inv (this : State) : Prop := {
  inv_index : index this ≤ length (input this);
  inv_tokens : Forall (token_ok (input this) (index this)) (tokenList this);
  inv_last :
    match lastToken this with
    | Some k => ∃ t, tokenList this !! k = Some t ∧
                     S k = length (tokenList this) ∧ end_ t = index this
    | None => index this = 0 ∨
              ∃ p, index this = S p ∧ isNewLine (charAt (input this) p) = true
    end;
  inv_cover : ∀ i c, i < index this → input this !! i = Some c →
    charKind c ≠ None → ∃ t, t ∈ tokenList this ∧ covers t i;
  inv_order : ordered (tokenList this);
  inv_concat :
    concat (value <$> tokenList this) =
    stripNewLines (take (index this) (input this));
  inv_lines :
    position_line this + lineBreaks (drop (index this) (input this)) =
    lineBreaks (input this);
}.

(** How [pushToken] closes the open token [t]. *)
Definition closeTok (t : Token) : Token :=
  if isKeyword (value t) then retag t else t.

Definition newTok (ty : TokenType) (c : N) (this : State) : Token :=
  mkToken ty [c] (index this) (index this + 1)
    (position_line this) (position_col this).

(** Claim C4 as the specification states it: a token whose text is a
    reserved word is a [Keyword] exactly when a token follows it in the
    output. *)
Definition retagged_iff_followed (inp : jsstring) : Prop :=
  ∀ toks k t, tokenizer inp = Some toks → toks !! k = Some t →
    isKeyword (value t) = true →
    (type t = Keyword ↔ is_Some (toks !! (k + 1))).

(** Claim C5 as the specification states it: [run] counts the line breaks
    of [specLineBreaks]. *)
Definition breaks_as_specified (inp : jsstring) : Prop :=
  ∀ final, run inp = Some final → position_line final = specLineBreaks inp.

(** Another token begins exactly where [t] ends. *)
Definition followed (toks : list Token) (t : Token) : Prop :=
  ∃ t', t' ∈ toks ∧ start t' = end_ t.

End TokenizerSpec.

(** The double quotation mark, which a Rocq string literal cannot hold. *)
Definition quote : jsstring := [34%N].

Module ParserSpec.

Import Tokenizer Parser.

(** The current collector has not consumed anything yet. *)
Definition fresh (s : State) : bool :=
  match node s, collector s with
  | Some _, Some a =>
      match heap s !! a with
      | Some obj => bool_decide (Collector.index (Collector.fields obj) = 0)
      | None => false
      end
  | _, _ => false
  end.

(** A bound on the number of iterations left. *)
Definition measure (s : State) : nat :=
  2 * (length (tokenList s) - index s) + (if fresh s then 0 else 1).

(** The loop, started in [s], ends with [r]. *)
Definition reaches (s : State) (r : Result State) : Prop :=
  ∃ fuel, run_loop fuel s = Some r.

(** The state after [n] iterations of the loop, if it gets that far. *)
Fixpoint steps (n : nat) (s : State) : option State :=
  match n with
  | 0 => Some s
  | S n' =>
      if bool_decide (index s < length (tokenList s)) then
        match iteration s with
        | Ok s' => steps n' s'
        | Throw _ => None
        end
      else None
  end.

(** Claim C3 as the specification states it: when the loop reaches the end
    of the tokens with collectors left on the stack, the parse throws. *)
Definition incomplete_statement_fails (tokens : list Token) : Prop :=
  ∀ n s, steps n (init tokens) = Some s → length tokens ≤ index s →
    collectorStack s ≠ [] → ∃ e, parser tokens = Some (Throw e).

(** The tokens of [alias foo]. *)
Definition alias_foo : list Token :=
  [mkToken Keyword (js "alias") 0 5 0 0; mkToken Whitespace (js " ") 5 6 0 1;
   mkToken Word (js "foo") 6 9 0 2].

(** The state [s] of a run on the tokens that follow [pre], seen as a state
    of the run on all the tokens. *)
Definition shift (pre : list Token) (s : State) : State :=
  mkState (length pre + index s) (pre ++ tokenList s) (ast_body s)
    (collectorStack s) (node s) (collector s) (heap s).

(** An iteration reads the token under the cursor and nothing else of the
    token list. *)
Definition retok (idx : nat) (tl : list Token) (s : State) : State :=
  mkState idx tl (ast_body s) (collectorStack s) (node s) (collector s)
    (heap s).

(** The run started in [s] ends with outcome [p]. *)
Definition returns (s : State) (p : Result Program) : Prop :=
  ∃ r, reaches s r ∧ ast <$> r = p.

Definition is_ws (t : Token) : Prop := type t = Whitespace.
Definition is_sign (s : jsstring) (t : Token) : Prop :=
  type t = Sign ∧ value t = s.

(** The example of the specification, and the same statement without the
    number and the space after [#]. *)
Definition spec_example : jsstring :=
  js "alias foo #1 bar(" ++ quote ++ js "baz" ++ quote ++ js ")".
Definition code_example : jsstring :=
  js "alias foo #bar(" ++ quote ++ js "baz" ++ quote ++ js ")".

Definition example_program : Program :=
  mkProgram
    [AliasStatementNode
       (mkAliasStatement
          (mkAliasLiteral (js "foo"),
           mkPackedStatement (js "bar") (mkStringLiteral (js "baz"))))].

End ParserSpec.

(** * Further notions: positions of tokens, states of the parser *)

Module PositionSpec.

Import Tokenizer TokenizerSpec.

(** Two consecutive tokens: on the same line, touching, with consecutive
    [col]; or on different lines, the second one first on its line. *)
Definition next_token_pos (t1 t2 : Token) : Prop :=
  (start t2 = end_ t1 ∧ line t2 = line t1 ∧ col t2 = col t1 + 1) ∨
  (end_ t1 < start t2 ∧ line t1 < line t2 ∧ col t2 = 0).

(** What the loop of [run] maintains about the position fields. *)
Record PosInv (this : State) : Prop := {
  pos_line : ∀ t, t ∈ tokenList this →
    line t + lineBreaks (drop (start t) (input this)) = lineBreaks (input this);
  pos_le : ∀ t, t ∈ tokenList this → line t ≤ position_line this;
  pos_open :
    match lastToken this with
    | Some _ => ∃ t, last (tokenList this) = Some t ∧
                     line t = position_line this ∧
                     position_col this = col t + 1
    | None => position_col this = 0 ∧
              ∀ t, t ∈ tokenList this → line t < position_line this
    end;
  pos_next : ∀ k t1 t2, tokenList this !! k = Some t1 →
    tokenList this !! (k + 1) = Some t2 → next_token_pos t1 t2;
  pos_first : ∀ t, tokenList this !! 0 = Some t → col t = 0;
}.

End PositionSpec.

Module ParserStates.

Import Tokenizer Parser ParserSpec.
Import Collector(Fields, mkFields, AliasStatementCollector,
                 StringLiteralCollector).

(** The state [s] of a run, seen as a state of the run on the same tokens
    followed by [more]. *)
Definition ext (more : list Token) (s : State) : State :=
  retok (index s) (tokenList s ++ more) s.

(** The number of [Word] tokens a collector has buffered. *)
Definition countWords (f : Fields) : nat :=
  length (filter (λ t, type t = Word) (Collector.tokenList f)).

(** An unfinished alias collector: its cursor is on one of its seven rules
    and it has buffered the words the rules before the cursor ask for. *)
Record alias_ok (f : Fields) : Prop := {
  alias_skip : Collector.skipWhitespace f = true;
  alias_open : Collector.complete f = false;
  alias_index : Collector.index f ≤ 6;
  alias_word1 : 2 ≤ Collector.index f → 1 ≤ countWords f;
  alias_word2 : 4 ≤ Collector.index f → 2 ≤ countWords f;
}.

(** An unfinished string collector: it has buffered one token per rule
    passed. *)
Record string_ok (f : Fields) : Prop := {
  string_skip : Collector.skipWhitespace f = true;
  string_open : Collector.complete f = false;
  string_index : Collector.index f = length (Collector.tokenList f);
  string_bound : Collector.index f ≤ 2;
}.

Definition is_alias (h : Collector.Heap) (a : Collector.addr) : Prop :=
  ∃ f n, h !! a = Some (AliasStatementCollector f n).

(** The states of the loop of [run]: between statements, inside an alias
    statement, or inside its string literal. *)
Definition WF (s : State) : Prop :=
  (∀ x, x ∈ ast_body s → is_alias (heap s) x) ∧
  match collector s with
  | None => node s = None ∧ collectorStack s = []
  | Some c =>
      node s = Some c ∧
      ((∃ f n, collectorStack s = [c] ∧
               heap s !! c = Some (AliasStatementCollector f n) ∧ alias_ok f) ∨
       (∃ a fa na f n, collectorStack s = [a; c] ∧ a ≠ c ∧
               heap s !! a = Some (AliasStatementCollector fa na) ∧
               alias_ok fa ∧ Collector.index fa = 5 ∧
               heap s !! c = Some (StringLiteralCollector f n) ∧ string_ok f))
  end.

(** The state [s] of a run, seen in a store that already holds the
    collectors [H0] and with the statements [B0] already in the program:
    every address of [s] moves up by the size of [H0]. *)
Definition reloc (H0 : Collector.Heap) (B0 : list Collector.addr) (s : State)
  : State :=
  mkState (index s) (tokenList s)
    (B0 ++ (Nat.add (length H0) <$> ast_body s))
    (Nat.add (length H0) <$> collectorStack s)
    (Nat.add (length H0) <$> node s)
    (Nat.add (length H0) <$> collector s)
    (H0 ++ heap s).

(** The tokens of [alias foo #bar("baz")]. *)
Definition example_tokens : list Token :=
  [mkToken Keyword (js "alias") 0 5 0 0; mkToken Whitespace (js " ") 5 6 0 1;
   mkToken Word (js "foo") 6 9 0 2; mkToken Whitespace (js " ") 9 10 0 3;
   mkToken Sign (js "#") 10 11 0 4; mkToken Word (js "bar") 11 14 0 5;
   mkToken Sign (js "(") 14 15 0 6; mkToken Sign quote 15 16 0 7;
   mkToken Word (js "baz") 16 19 0 8; mkToken Sign quote 19 20 0 9;
   mkToken Sign (js ")") 20 21 0 10].

(** The tokens of [alias], line feed, [foo #bar("baz")]. *)
Definition alias_on_its_own_line : jsstring :=
  js "alias" ++ [10%N] ++ js "foo #bar(" ++ quote ++ js "baz" ++ quote ++ js ")".

(** [word] occurs in [inp]. *)
Definition occurs (word inp : jsstring) : Prop :=
  ∃ pre post, inp = pre ++ word ++ post.

(** A token without its position. *)
Definition erase (t : Token) : Token := mkToken (type t) (value t) 0 0 0 0.

Definition eraseFields (f : Fields) : Fields :=
  mkFields (erase <$> Collector.tokenList f) (Collector.index f)
    (Collector.complete f) (Collector.skipWhitespace f).

Definition eraseCollector (c : Collector.Collector) : Collector.Collector :=
  Collector.withFields (eraseFields (Collector.fields c)) c.

Definition eraseState (s : State) : State :=
  mkState (index s) (erase <$> tokenList s) (ast_body s) (collectorStack s)
    (node s) (collector s) (eraseCollector <$> heap s).

(** The collector at [x] has matched its last rule. *)
Definition finished (h : Collector.Heap) (x : Collector.addr) : Prop :=
  ∃ obj, h !! x = Some obj ∧
         Collector.complete (Collector.fields obj) = true.

(** [nd] is the node of the collector at [x], which has matched its last
    rule. *)
Definition node_of_finished (h : Collector.Heap) (x : Collector.addr)
    (nd : Node) : Prop :=
  ∃ obj, h !! x = Some obj ∧
         Collector.complete (Collector.fields obj) = true ∧
         nd = Collector.node obj.

(** The statement the loop is in: the alias collector at the bottom of the
    stack, which has not matched its last rule. *)
Definition unfinished_statement (s : State) (a : Collector.addr) : Prop :=
  ∃ f n rest, collectorStack s = a :: rest ∧
    heap s !! a = Some (AliasStatementCollector f n) ∧
    Collector.complete f = false.

End ParserStates.

(** * Properties of the tokenizer *)

Module TokenizerFacts.

Import Tokenizer TokenizerSpec.

Lemma charAt_Some (s : jsstring) i c : s !! i = Some c → charAt s i = [c].
Proof. unfold charAt. by intros ->. Qed.

Lemma charAt_None (s : jsstring) i : length s ≤ i → charAt s i = [].
Proof. intros H. unfold charAt. by rewrite lookup_ge_None_2. Qed.

Lemma charKind_None c : charKind c = None ↔ isNewLine [c] = true.
Proof.
  unfold charKind. destruct (isNewLine [c]); [done|].
  destruct (isWhitespace [c]); [done|]. by destruct (isSign [c]).
Qed.

Lemma charKind_Some c ty : charKind c = Some ty → isNewLine [c] = false.
Proof.
  intros H. destruct (isNewLine [c]) eqn:E; [|done].
  apply charKind_None in E. congruence.
Qed.

Lemma charKind_not_Keyword c : charKind c ≠ Some Keyword.
Proof.
  unfold charKind. destruct (isNewLine [c]); [done|].
  destruct (isWhitespace [c]); [done|]. by destruct (isSign [c]).
Qed.

Lemma charKind_base c ty : charKind c = Some ty → base ty = ty.
Proof.
  intros H. destruct ty; try done. by apply charKind_not_Keyword in H.
Qed.

(** What one iteration does, by the kind of the current character. *)
Lemma step_newline this c :
  input this !! index this = Some c → charKind c = None →
  step this = pushNewLine [c] this.
Proof.
  intros Hc Hk. unfold step. rewrite (charAt_Some _ _ _ Hc).
  apply charKind_None in Hk. by rewrite Hk.
Qed.

Lemma step_token this c ty :
  input this !! index this = Some c → charKind c = Some ty →
  step this = pushToken ty [c] this.
Proof.
  intros Hc Hk. unfold step. rewrite (charAt_Some _ _ _ Hc).
  unfold charKind in Hk. destruct (isNewLine [c]); [done|].
  destruct (isWhitespace [c]); [congruence|].
  destruct (isSign [c]); congruence.
Qed.

(** A reserved word starts with a character of kind [Word]. *)
Lemma isKeyword_head v :
  isKeyword v = true → ∃ c, head v = Some c ∧ charKind c = Some Word.
Proof.
  unfold isKeyword, includes. intros H. apply bool_decide_eq_true in H.
  unfold KeywordList in H.
  repeat (apply elem_of_cons in H as [->|H]; [eexists; split; [reflexivity|by vm_compute]|]).
  by apply elem_of_nil in H.
Qed.

Lemma ordered_push l x :
  ordered l → (∀ t, t ∈ l → end_ t ≤ start x) → ordered (l ++ [x]).
Proof.
  intros Ho Hx j k t1 t2 Hjk H1 H2.
  apply lookup_snoc_Some in H2 as [[Hk H2]|[-> <-]].
  - rewrite lookup_app_l in H1 by lia. by apply (Ho j k).
  - rewrite lookup_app_l in H1 by lia. apply Hx.
    by apply list_elem_of_lookup_2 in H1.
Qed.

Lemma ordered_replace l t x :
  ordered (l ++ [t]) → start x = start t → ordered (l ++ [x]).
Proof.
  intros Ho Hx j k t1 t2 Hjk H1 H2.
  apply lookup_snoc_Some in H2 as [[Hk H2]|[-> <-]].
  - rewrite lookup_app_l in H1 by lia. apply (Ho j k); try done.
    + by rewrite lookup_app_l by lia.
    + by rewrite lookup_app_l by lia.
  - rewrite lookup_app_l in H1 by lia. rewrite Hx. apply (Ho j (length l)); try done.
    + by rewrite lookup_app_l by lia.
    + by rewrite list_lookup_middle.
Qed.

Lemma ordered_before l t t0 :
  ordered (l ++ [t]) → t0 ∈ l → end_ t0 ≤ start t.
Proof.
  intros Ho H0. apply list_elem_of_lookup_1 in H0 as [j Hj].
  pose proof (lookup_lt_Some _ _ _ Hj).
  apply (Ho j (length l)); try done.
  - by rewrite lookup_app_l by lia.
  - by rewrite list_lookup_middle.
Qed.

Lemma Inv_init inp : Inv (init inp).
Proof.
  split; simpl; try done; try lia; try (by left); try (intros; lia).
Qed.

(** A token that is closed, or that a line break is about to close, keeps
    its properties when the cursor moves on. *)
Lemma token_ok_mono inp idx idx' t :
  token_ok inp idx t → idx ≤ idx' →
  end_ t < idx ∨ isNewLine (charAt inp (end_ t)) = true →
  token_ok inp idx' t.
Proof.
  intros [] Hle Hc. split; try done; [lia|].
  rewrite ok_keyword0. split; intros (?&?&?); split_and!; try done; try lia.
  destruct Hc; [lia|congruence].
Qed.

(** With no open token, every token ends before the cursor. *)
Lemma closed_before this t :
  Inv this → lastToken this = None → t ∈ tokenList this → end_ t < index this.
Proof.
  intros HI HN Ht. pose proof (inv_last _ HI) as HL. rewrite HN in HL.
  pose proof (inv_tokens _ HI) as HF. rewrite Forall_forall in HF.
  destruct (HF _ Ht) as [Hs _ Hk _ _ _].
  destruct HL as [H0|(p&Hp&Hnl)]; [lia|].
  destruct (decide (end_ t < index this)); [done|].
  assert (Hc : covers t p) by (unfold covers; lia).
  destruct (input this !! p) as [c|] eqn:E.
  - specialize (Hk _ _ Hc E). rewrite (charAt_Some _ _ _ E) in Hnl.
    apply charKind_None in Hnl. congruence.
  - unfold charAt in Hnl. by rewrite E in Hnl.
Qed.

(** The list of tokens with its last element singled out. *)
Lemma last_split (l : list Token) k t :
  l !! k = Some t → S k = length l → l = take k l ++ [t] ∧ length (take k l) = k.
Proof.
  intros Hk Hl. split.
  - rewrite <- (take_drop_middle l k t Hk) at 1.
    by rewrite (drop_ge l (S k)) by lia.
  - rewrite length_take. lia.
Qed.

Lemma stripNewLines_app s1 s2 :
  stripNewLines (s1 ++ s2) = stripNewLines s1 ++ stripNewLines s2.
Proof. apply filter_app. Qed.

Lemma stripNewLines_newline c : isNewLine [c] = true → stripNewLines [c] = [].
Proof.
  intros H. unfold stripNewLines. rewrite filter_cons, H.
  by rewrite decide_False.
Qed.

Lemma stripNewLines_other c : isNewLine [c] = false → stripNewLines [c] = [c].
Proof.
  intros H. unfold stripNewLines. rewrite filter_cons, H.
  by rewrite decide_True.
Qed.

Lemma lineBreaks_newline c rest :
  isNewLine [c] = true →
  lineBreaks (c :: rest) =
  S (lineBreaks
       match rest with
       | n :: rest' =>
           if negb (bool_decide (c = n)) && isNewLine [n] then rest' else rest
       | [] => []
       end).
Proof.
  intros H. cbn [lineBreaks]. rewrite H. destruct rest as [|n rest']; [done|].
  by destruct (negb (bool_decide (c = n)) && isNewLine [n]).
Qed.

Lemma lineBreaks_other c rest :
  isNewLine [c] = false → lineBreaks (c :: rest) = lineBreaks rest.
Proof. intros H. cbn [lineBreaks]. by rewrite H. Qed.

(** The two outcomes of [pushNewLine]: it consumes the next character as
    well exactly when that is the other line-break character. *)
Lemma pushNewLine_cases this c :
  input this !! index this = Some c →
  (∃ n, input this !! (index this + 1) = Some n ∧ c ≠ n ∧ isNewLine [n] = true ∧
        pushNewLine [c] this =
        mkState (input this) (index this + 2) (position_line this + 1) 0 None
          (tokenList this)) ∨
  ((∀ n, input this !! (index this + 1) = Some n → c = n ∨ isNewLine [n] = false) ∧
   pushNewLine [c] this =
   mkState (input this) (index this + 1) (position_line this + 1) 0 None
     (tokenList this)).
Proof.
  intros Hc. unfold pushNewLine, getSafeString, charAt.
  destruct (input this !! (index this + 1)) as [n|] eqn:E.
  - destruct (decide (c = n)) as [->|Hne].
    + right. split; [naive_solver|]. by rewrite bool_decide_eq_true_2.
    + rewrite bool_decide_eq_false_2 by congruence. simpl.
      destruct (isNewLine [n]) eqn:En.
      * left. exists n. split_and!; try done.
        by replace (index this + 1 + 1) with (index this + 2) by lia.
      * right. split; [naive_solver|done].
  - right. split; [done|]. by rewrite bool_decide_eq_false_2.
Qed.

Lemma pushNewLine_inv this c :
  Inv this → input this !! index this = Some c → charKind c = None →
  Inv (pushNewLine [c] this).
Proof.
  intros HI Hc Hk. apply charKind_None in Hk.
  pose proof (lookup_lt_Some _ _ _ Hc) as Hlt.
  assert (Hmono : ∀ idx', index this ≤ idx' →
            Forall (token_ok (input this) idx') (tokenList this)).
  { intros idx' Hle. eapply Forall_impl; [apply (inv_tokens _ HI)|].
    intros t Ht. simpl. apply (token_ok_mono _ (index this)); try done.
    destruct (ok_span _ _ _ Ht) as [_ He].
    destruct (decide (end_ t = index this)) as [->|]; [|left; lia].
    right. by rewrite (charAt_Some _ _ _ Hc). }
  pose proof (drop_S _ _ _ Hc) as Hd.
  pose proof (inv_lines _ HI) as HL.
  rewrite Hd, (lineBreaks_newline _ _ Hk) in HL.
  destruct (pushNewLine_cases this c Hc) as [(n&Hn&Hne&Hnl&->)|[Hn ->]].
  - pose proof (lookup_lt_Some _ _ _ Hn) as Hlt'.
    assert (Hd' : drop (S (index this)) (input this) =
                  n :: drop (index this + 2) (input this)).
    { replace (index this + 2) with (S (index this + 1)) by lia.
      replace (S (index this)) with (index this + 1) by lia.
      by apply drop_S. }
    split; simpl.
    + lia.
    + apply Hmono. lia.
    + right. exists (index this + 1). split; [lia|].
      by rewrite (charAt_Some _ _ _ Hn).
    + intros i ci Hi Hci Hki.
      assert (i < index this).
      { destruct (decide (i = index this)) as [->|].
        { rewrite Hc in Hci. inversion Hci; subst.
          by apply charKind_None in Hk. }
        destruct (decide (i = index this + 1)) as [->|]; [|lia].
        rewrite Hn in Hci. inversion Hci; subst.
        by apply charKind_None in Hnl. }
      by apply (inv_cover _ HI i ci).
    + apply (inv_order _ HI).
    + rewrite (inv_concat _ HI).
      replace (index this + 2) with (S (S (index this))) by lia.
      rewrite (take_S_r _ _ n) by (by replace (S (index this)) with (index this + 1) by lia).
      rewrite (take_S_r _ _ c) by done.
      rewrite !stripNewLines_app, !stripNewLines_newline by done.
      by rewrite !app_nil_r.
    + rewrite Hd' in HL.
      rewrite bool_decide_eq_false_2 in HL by done. cbn [negb andb] in HL.
      rewrite Hnl in HL. cbn [negb andb] in HL. lia.
  - split; simpl.
    + lia.
    + apply Hmono. lia.
    + right. exists (index this). split; [lia|].
      by rewrite (charAt_Some _ _ _ Hc).
    + intros i ci Hi Hci Hki.
      assert (i < index this).
      { destruct (decide (i = index this)) as [->|]; [|lia].
        rewrite Hc in Hci. inversion Hci; subst.
        by apply charKind_None in Hk. }
      by apply (inv_cover _ HI i ci).
    + apply (inv_order _ HI).
    + rewrite (inv_concat _ HI).
      replace (index this + 1) with (S (index this)) by lia.
      rewrite (take_S_r _ _ c) by done.
      rewrite !stripNewLines_app, !stripNewLines_newline by done.
      by rewrite !app_nil_r.
    + replace (index this + 1) with (S (index this)) by lia.
      destruct (drop (S (index this)) (input this)) as [|n rest] eqn:E; [lia|].
      assert (Hn' : input this !! (index this + 1) = Some n).
      { replace (index this + 1) with (S (index this) + 0) by lia.
        rewrite <- lookup_drop. by rewrite E. }
      destruct (Hn _ Hn') as [->|Hf].
      * rewrite bool_decide_eq_true_2 in HL by done. cbn [negb andb] in HL. lia.
      * rewrite Hf, andb_false_r in HL. lia.
Qed.

Lemma mergeable ty : ty ∈ [Whitespace; Word] ↔ ty = Whitespace ∨ ty = Word.
Proof. rewrite !elem_of_cons, elem_of_nil. tauto. Qed.

(** The three outcomes of [pushToken] in a state of the loop. *)
Lemma pushToken_cases this ty c :
  Inv this →
  (lastToken this = None ∧
   pushToken ty [c] this =
   mkState (input this) (index this + 1) (position_line this)
     (position_col this + 1) (Some (length (tokenList this)))
     (tokenList this ++ [newTok ty c this])) ∨
  (∃ l0 t, tokenList this = l0 ++ [t] ∧ lastToken this = Some (length l0) ∧
     end_ t = index this ∧
     ((type t = ty ∧ (ty = Whitespace ∨ ty = Word) ∧
       pushToken ty [c] this =
       mkState (input this) (index this + 1) (position_line this)
         (position_col this) (Some (length l0)) (l0 ++ [extend [c] t])) ∨
      (¬ (type t = ty ∧ (ty = Whitespace ∨ ty = Word)) ∧
       pushToken ty [c] this =
       mkState (input this) (index this + 1) (position_line this)
         (position_col this + 1) (Some (S (length l0)))
         (l0 ++ [closeTok t; newTok ty c this])))).
Proof.
  intros HI. pose proof (inv_last _ HI) as HL.
  unfold pushToken, lastTokenObj, updLast.
  destruct (lastToken this) as [k|] eqn:Ek; simpl.
  - right. destruct HL as (t&Ht&Hk&He).
    destruct (last_split _ _ _ Ht Hk) as [Hl Hlen].
    exists (take k (tokenList this)), t. rewrite Hlen.
    split_and!; try done. rewrite Ht.
    assert (Halt : ∀ f, alter f k (tokenList this) =
                        take k (tokenList this) ++ [f t]).
    { intros f. rewrite Hl at 1.
      rewrite <- Hlen at 1. rewrite <- (Nat.add_0_r (length _)).
      by rewrite alter_app_r. }
    destruct (decide (type t = ty)) as [Hty|Hty].
    + rewrite (bool_decide_eq_true_2 _ Hty). simpl.
      destruct (decide (type t ∈ [Whitespace; Word])) as [Hin|Hin].
      * rewrite (bool_decide_eq_true_2 _ Hin). left.
        split_and!; try done.
        -- rewrite <- Hty. by apply mergeable.
        -- by rewrite Halt.
      * rewrite (bool_decide_eq_false_2 _ Hin). right. split.
        -- intros [_ H]. apply Hin. rewrite Hty. by apply mergeable.
        -- unfold closeTok, newTok. destruct (isKeyword (value t)).
           ++ rewrite Halt, length_app, Hlen. simpl.
              rewrite <- app_assoc. do 2 f_equal. lia.
           ++ rewrite <- Hk. f_equal. by rewrite (cons_middle t), app_assoc, <- Hl.
    + rewrite (bool_decide_eq_false_2 _ Hty). simpl. right. split.
      * by intros [? _].
      * unfold closeTok, newTok. destruct (isKeyword (value t)).
        -- rewrite Halt, length_app, Hlen. simpl.
           rewrite <- app_assoc. do 2 f_equal. lia.
        -- rewrite <- Hk. f_equal. by rewrite (cons_middle t), app_assoc, <- Hl.
  - left. by unfold newTok.
Qed.

Lemma slice_head inp t c :
  slice inp t → start t < end_ t → head (value t) = Some c →
  inp !! start t = Some c.
Proof.
  unfold slice. intros -> Hlt Hh.
  destruct (end_ t - start t) as [|n] eqn:E; [lia|].
  destruct (drop (start t) inp) as [|x rest] eqn:Ed; [done|].
  simpl in Hh. inversion Hh; subst.
  replace (start t) with (start t + 0) by lia.
  by rewrite <- lookup_drop, Ed.
Qed.

(** A token whose text is a reserved word was created as a [Word]. *)
Lemma keyword_is_word inp idx t :
  token_ok inp idx t → isKeyword (value t) = true → base (type t) = Word.
Proof.
  intros Hok Hkw. destruct (isKeyword_head _ Hkw) as (c&Hh&Hc).
  pose proof (ok_span _ _ _ Hok) as [Hs _].
  pose proof (slice_head _ _ _ (ok_slice _ _ _ Hok) Hs Hh) as Hlook.
  assert (Hcov : covers t (start t)) by (unfold covers; lia).
  pose proof (ok_kind _ _ _ Hok _ _ Hcov Hlook). congruence.
Qed.

(** The open token is not yet a keyword. *)
Lemma open_not_keyword inp idx t :
  token_ok inp idx t → end_ t = idx → type t ≠ Keyword.
Proof. intros Hok He Hk. apply (ok_keyword _ _ _ Hok) in Hk. lia. Qed.

Lemma token_ok_extend inp idx t c ty :
  token_ok inp idx t → end_ t = idx → inp !! idx = Some c →
  charKind c = Some ty → type t = ty → ty = Whitespace ∨ ty = Word →
  token_ok inp (idx + 1) (extend [c] t).
Proof.
  intros Hok He Hc Hk Hty Hm.
  pose proof (ok_span _ _ _ Hok) as [Hs Hi].
  assert (Hb : base (type t) = ty) by (rewrite Hty; by destruct Hm as [-> | ->]).
  split; simpl.
  - lia.
  - unfold slice. simpl. rewrite (ok_slice _ _ _ Hok).
    replace (end_ t + 1 - start t) with (S (end_ t - start t)) by lia.
    symmetry. apply take_S_r. rewrite lookup_drop.
    replace (start t + (end_ t - start t)) with idx by lia. done.
  - intros i ci [Hi1 Hi2] Hci. simpl in *.
    destruct (decide (i = idx)) as [->|].
    + rewrite Hc in Hci. inversion Hci; subst ci. by rewrite Hb.
    + apply (ok_kind _ _ _ Hok i); [unfold covers; lia|done].
  - intros HS. rewrite HS in Hty. destruct Hm; congruence.
  - split.
    + intros HK. rewrite HK in Hty. destruct Hm; congruence.
    + intros (_&?&_). lia.
  - apply (ok_start _ _ _ Hok).
Qed.

Lemma token_ok_close inp idx t c ty :
  token_ok inp idx t → end_ t = idx → inp !! idx = Some c →
  charKind c = Some ty →
  token_ok inp (idx + 1) (closeTok t).
Proof.
  intros Hok He Hc Hk.
  pose proof (ok_span _ _ _ Hok) as [Hs Hi].
  pose proof (open_not_keyword _ _ _ Hok He) as Hnk.
  unfold closeTok. destruct (isKeyword (value t)) eqn:Ekw.
  - pose proof (keyword_is_word _ _ _ Hok Ekw) as Hb.
    split; simpl.
    + lia.
    + apply (ok_slice _ _ _ Hok).
    + intros i ci Hcov Hci. rewrite <- Hb. by apply (ok_kind _ _ _ Hok i).
    + done.
    + split; [|done]. intros _. split_and!; [done|lia|].
      rewrite He, (charAt_Some _ _ _ Hc). by apply (charKind_Some _ ty).
    + intros p cp Hp Hcp Hkp. rewrite <- Hb.
      apply (ok_start _ _ _ Hok p cp); try done. by rewrite Hb.
  - destruct Hok. split; try done; [lia|].
    split; [done|]. intros (?&_). congruence.
Qed.

Lemma token_ok_new this ty c :
  Inv this → input this !! index this = Some c → charKind c = Some ty →
  (∀ t, lastTokenObj this = Some t → ¬ (type t = ty ∧ (ty = Whitespace ∨ ty = Word))) →
  token_ok (input this) (index this + 1) (newTok ty c this).
Proof.
  intros HI Hc Hk Hnm.
  pose proof (charKind_base _ _ Hk) as Hb.
  split; simpl.
  - lia.
  - unfold slice. simpl. rewrite (drop_S _ _ _ Hc).
    by replace (index this + 1 - index this) with 1 by lia.
  - intros i ci [Hi1 Hi2] Hci. simpl in *.
    assert (i = index this) as -> by lia.
    rewrite Hc in Hci. inversion Hci; subst ci. by rewrite Hb.
  - done.
  - split.
    + intros ->. by apply charKind_not_Keyword in Hk.
    + intros (_&?&_). lia.
  - intros p cp Hp Hcp Hkp. rewrite Hb in *.
    pose proof (inv_last _ HI) as HL. unfold lastTokenObj in Hnm.
    destruct (lastToken this) as [k|]; simpl in Hnm.
    + destruct HL as (t&Ht&Hlen&He). rewrite Ht in Hnm.
      specialize (Hnm t eq_refl).
      pose proof (inv_tokens _ HI) as HF. rewrite Forall_forall in HF.
      assert (Hok : token_ok (input this) (index this) t)
        by (apply HF; by eapply list_elem_of_lookup_2).
      pose proof (ok_span _ _ _ Hok) as [Hs _].
      assert (Hcov : covers t p) by (unfold covers; lia).
      pose proof (ok_kind _ _ _ Hok _ _ Hcov Hcp) as Hkt.
      pose proof (open_not_keyword _ _ _ Hok He) as Hnk.
      assert (type t = ty).
      { rewrite Hkp in Hkt. inversion Hkt as [Hx]. destruct (type t); done. }
      destruct ty; try done; exfalso; apply Hnm; auto.
    + destruct HL as [H0|(p'&Hp'&Hnl)]; [lia|].
      assert (p' = p) as -> by lia.
      rewrite (charAt_Some _ _ _ Hcp) in Hnl. apply charKind_None in Hnl.
      congruence.
Qed.

Lemma concat_values_snoc (l : list Token) t :
  concat (value <$> (l ++ [t])) = concat (value <$> l) ++ value t.
Proof. by rewrite fmap_app, concat_app; simpl; rewrite app_nil_r. Qed.

Lemma pushToken_inv this c ty :
  Inv this → input this !! index this = Some c → charKind c = Some ty →
  Inv (pushToken ty [c] this).
Proof.
  intros HI Hc Hk.
  pose proof (lookup_lt_Some _ _ _ Hc) as Hlt.
  pose proof (charKind_Some _ _ Hk) as Hnl.
  pose proof (inv_tokens _ HI) as HF.
  pose proof (inv_order _ HI) as HO.
  assert (Hstrip : stripNewLines (take (index this + 1) (input this)) =
                   concat (value <$> tokenList this) ++ [c]).
  { replace (index this + 1) with (S (index this)) by lia.
    rewrite (take_S_r _ _ c) by done.
    by rewrite stripNewLines_app, stripNewLines_other, (inv_concat _ HI). }
  assert (Hlines : position_line this +
                   lineBreaks (drop (index this + 1) (input this)) =
                   lineBreaks (input this)).
  { rewrite <- (inv_lines _ HI), (drop_S _ _ _ Hc), lineBreaks_other by done.
    by replace (index this + 1) with (S (index this)) by lia. }
  assert (Hcov : ∀ (l' : list Token) x, covers x (index this) → x ∈ l' →
            (∀ t i, t ∈ tokenList this → covers t i →
               ∃ t', t' ∈ l' ∧ covers t' i) →
            ∀ i ci, i < index this + 1 → input this !! i = Some ci →
              charKind ci ≠ None → ∃ t, t ∈ l' ∧ covers t i).
  { intros l' x Hx Hin Hold i ci Hi Hci Hki.
    destruct (decide (i = index this)) as [->|]; [by exists x|].
    destruct (inv_cover _ HI i ci) as (t&Ht&Hct); try done; [lia|].
    by apply (Hold t). }
  destruct (pushToken_cases this ty c HI) as
    [[HN ->]|(l0&t&Hl&HS&He&[(Hty&Hm&->)|(Hnm&->)])].
  - (* no open token *)
    assert (Hnew : token_ok (input this) (index this + 1) (newTok ty c this)).
    { apply token_ok_new; try done. unfold lastTokenObj. by rewrite HN. }
    split; simpl; try done.
    + lia.
    + apply Forall_app. split; [|by apply Forall_singleton].
      rewrite Forall_forall. intros t Ht. rewrite Forall_forall in HF.
      apply (token_ok_mono _ (index this)); [by apply HF|lia|].
      left. by apply closed_before.
    + exists (newTok ty c this). split_and!; simpl; try lia.
      * by rewrite list_lookup_middle.
      * rewrite length_app. simpl. lia.
    + apply (Hcov _ (newTok ty c this)).
      * unfold covers. simpl. lia.
      * apply elem_of_app. right. by apply list_elem_of_singleton.
      * intros t i Ht Hct. exists t. split; [|done].
        apply elem_of_app. by left.
    + apply ordered_push; [done|]. intros t Ht. simpl.
      rewrite Forall_forall in HF. destruct (ok_span _ _ _ (HF _ Ht)). lia.
    + rewrite Hstrip, concat_values_snoc. reflexivity.
  - (* the open token is extended *)
    rewrite Hl in HF, HO. apply Forall_app in HF as [HF0 HFt].
    rewrite Forall_singleton in HFt.
    assert (Hext : token_ok (input this) (index this + 1) (extend [c] t))
      by (apply (token_ok_extend _ _ _ _ ty HFt He Hc Hk Hty Hm)).
    split; simpl; try done.
    + lia.
    + apply Forall_app. split; [|by apply Forall_singleton].
      rewrite Forall_forall. intros t0 Ht0. rewrite Forall_forall in HF0.
      apply (token_ok_mono _ (index this)); [by apply HF0|lia|].
      left. pose proof (ordered_before _ _ _ HO Ht0).
      destruct (ok_span _ _ _ HFt). lia.
    + exists (extend [c] t). split_and!; simpl; try lia.
      * by rewrite list_lookup_middle.
      * rewrite length_app. simpl. lia.
    + apply (Hcov _ (extend [c] t)).
      * unfold covers. simpl. destruct (ok_span _ _ _ HFt). lia.
      * apply elem_of_app. right. by apply list_elem_of_singleton.
      * intros t1 i Ht1 Hct. rewrite Hl in Ht1.
        apply elem_of_app in Ht1 as [Ht1|Ht1].
        -- exists t1. split; [|done]. apply elem_of_app. by left.
        -- apply list_elem_of_singleton in Ht1 as ->.
           exists (extend [c] t). split.
           ++ apply elem_of_app. right. by apply list_elem_of_singleton.
           ++ unfold covers in *. simpl. lia.
    + by apply (ordered_replace _ t).
    + rewrite Hstrip, Hl, !concat_values_snoc. simpl. by rewrite app_assoc.
  - (* the open token is closed and a new one pushed *)
    assert (Hnew : token_ok (input this) (index this + 1) (newTok ty c this)).
    { apply token_ok_new; try done. unfold lastTokenObj. rewrite HS. simpl.
      rewrite Hl, list_lookup_middle by done. by intros ? [= <-]. }
    rewrite Hl in HF, HO. apply Forall_app in HF as [HF0 HFt].
    rewrite Forall_singleton in HFt.
    assert (Hcl : token_ok (input this) (index this + 1) (closeTok t))
      by (apply (token_ok_close _ _ _ c ty HFt He Hc Hk)).
    assert (Hcs : start (closeTok t) = start t ∧ end_ (closeTok t) = end_ t ∧
                  value (closeTok t) = value t).
    { unfold closeTok. by destruct (isKeyword (value t)). }
    destruct Hcs as (Hcs&Hce&Hcv).
    split; simpl; try done.
    + lia.
    + apply Forall_app. split;
        [|apply Forall_cons; split; [done|by apply Forall_singleton]].
      rewrite Forall_forall. intros t0 Ht0. rewrite Forall_forall in HF0.
      apply (token_ok_mono _ (index this)); [by apply HF0|lia|].
      left. pose proof (ordered_before _ _ _ HO Ht0).
      destruct (ok_span _ _ _ HFt). lia.
    + exists (newTok ty c this). split_and!; simpl; try lia.
      * rewrite (cons_middle (closeTok t)), app_assoc.
        rewrite list_lookup_middle; [done|]. rewrite length_app. simpl. lia.
      * rewrite length_app. simpl. lia.
    + apply (Hcov _ (newTok ty c this)).
      * unfold covers. simpl. lia.
      * apply elem_of_app. right. apply elem_of_cons. right.
        by apply list_elem_of_singleton.
      * intros t1 i Ht1 Hct. rewrite Hl in Ht1.
        apply elem_of_app in Ht1 as [Ht1|Ht1].
        -- exists t1. split; [|done]. apply elem_of_app. by left.
        -- apply list_elem_of_singleton in Ht1 as ->.
           exists (closeTok t). split.
           ++ apply elem_of_app. right. apply elem_of_cons. by left.
           ++ unfold covers in *. lia.
    + rewrite (cons_middle (closeTok t)), app_assoc.
      apply ordered_push; [by apply (ordered_replace _ t)|].
      intros t1 Ht1. simpl.
      apply elem_of_app in Ht1 as [Ht1|Ht1].
      * pose proof (ordered_before _ _ _ HO Ht1).
        destruct (ok_span _ _ _ HFt). lia.
      * apply list_elem_of_singleton in Ht1 as ->. lia.
    + rewrite Hstrip, Hl, (cons_middle (closeTok t)), app_assoc.
      rewrite !concat_values_snoc. simpl. by rewrite Hcv.
Qed.

Lemma step_inv this :
  Inv this → index this < length (input this) → Inv (step this).
Proof.
  intros HI Hlt. destruct (lookup_lt_is_Some_2 _ _ Hlt) as [c Hc].
  destruct (charKind c) as [ty|] eqn:Hk.
  - rewrite (step_token _ _ _ Hc Hk). by apply pushToken_inv.
  - rewrite (step_newline _ _ Hc Hk). by apply pushNewLine_inv.
Qed.

Lemma step_input this : input (step this) = input this.
Proof.
  unfold step, pushNewLine, pushToken.
  repeat match goal with |- context [if ?b then _ else _] => destruct b end; done.
Qed.

Lemma step_index this : index this < index (step this).
Proof.
  unfold step, pushNewLine, pushToken.
  repeat match goal with |- context [if ?b then _ else _] => destruct b end;
    simpl; lia.
Qed.

(** The loop ends, in a state that satisfies the invariant, with the cursor
    at the end of the input. *)
Lemma run_loop_inv fuel this :
  Inv this → length (input this) - index this < fuel →
  ∃ final, run_loop fuel this = Some final ∧ Inv final ∧
           input final = input this ∧ index final = length (input this).
Proof.
  revert this. induction fuel as [|fuel IH]; intros this HI Hf; [lia|].
  simpl. case_bool_decide as Hlt.
  - pose proof (step_index this). pose proof (step_input this) as Hin.
    destruct (IH (step this)) as (final&Hr&HIf&Hif&Hxf).
    + by apply step_inv.
    + rewrite Hin. lia.
    + exists final. rewrite Hr. split_and!; try done; congruence.
  - exists this. split_and!; try done. pose proof (inv_index _ HI). lia.
Qed.

Lemma run_inv inp :
  ∃ final, run inp = Some final ∧ Inv final ∧
           input final = inp ∧ index final = length inp.
Proof.
  unfold run. apply (run_loop_inv _ (init inp)); [apply Inv_init|simpl; lia].
Qed.

Lemma cover_unique (l : list Token) j k t1 t2 i :
  ordered l → l !! j = Some t1 → l !! k = Some t2 →
  covers t1 i → covers t2 i → j = k.
Proof.
  intros Ho H1 H2 [? ?] [? ?].
  destruct (Nat.lt_trichotomy j k) as [Hlt|[->|Hlt]]; [|done|].
  - pose proof (Ho _ _ _ _ Hlt H1 H2). lia.
  - pose proof (Ho _ _ _ _ Hlt H2 H1). lia.
Qed.

Lemma base_Sign ty : base ty = Sign → ty = Sign.
Proof. by destruct ty. Qed.

(** What [run] returns, with the invariant at the end of the input. *)
Lemma tokenizer_inv inp :
  ∃ final, run inp = Some final ∧ tokenizer inp = Some (tokenList final) ∧
    Inv final ∧ input final = inp ∧ index final = length inp.
Proof.
  destruct (run_inv inp) as (final&Hr&HI&Hin&Hx).
  exists final. unfold tokenizer. rewrite Hr. by split_and!.
Qed.

(** Claim C6: for every input, the texts of the tokens [tokenizer] returns,
    concatenated in output order, are the input with every LF and CR
    removed. *)
Theorem tokenizer_concat_values inp :
  ∃ toks, tokenizer inp = Some toks ∧
          concat (value <$> toks) = stripNewLines inp.
Proof.
  destruct (tokenizer_inv inp) as (final&_&Ht&HI&Hin&Hx).
  exists (tokenList final). split; [done|].
  rewrite (inv_concat _ HI), Hin, Hx. by rewrite firstn_all.
Qed.

(** Claim C10: [tokenizer] returns for every input (the fuel of the loop
    suffices and nothing throws), and every character that is not a
    line-break character has exactly one kind among Whitespace, Word and
    Sign, which is the kind, before retagging, of the one token that covers
    its position. *)
Theorem tokenizer_total inp :
  ∃ toks, tokenizer inp = Some toks ∧
    ∀ i c, inp !! i = Some c → isNewLine [c] = false →
      ∃ ty, charKind c = Some ty ∧ (ty = Whitespace ∨ ty = Word ∨ ty = Sign) ∧
        ∃ k t, toks !! k = Some t ∧ covers t i ∧ base (type t) = ty ∧
          ∀ k' t', toks !! k' = Some t' → covers t' i → k' = k.
Proof.
  destruct (tokenizer_inv inp) as (final&_&Ht&HI&Hin&Hx).
  exists (tokenList final). split; [done|].
  intros i c Hc Hnl.
  destruct (charKind c) as [ty|] eqn:Hk; [|apply charKind_None in Hk; congruence].
  exists ty. split; [done|]. split.
  { destruct ty; auto. by apply charKind_not_Keyword in Hk. }
  pose proof (lookup_lt_Some _ _ _ Hc) as Hlt.
  destruct (inv_cover _ HI i c) as (t&Hin'&Hcov); [lia|by rewrite Hin|congruence|].
  apply list_elem_of_lookup_1 in Hin' as [k Hlk].
  exists k, t. split_and!; try done.
  - pose proof (inv_tokens _ HI) as HF. rewrite Forall_forall in HF.
    assert (Hok : token_ok (input final) (index final) t)
      by (apply HF; by eapply list_elem_of_lookup_2).
    rewrite Hin in Hok. pose proof (ok_kind _ _ _ Hok _ _ Hcov Hc). congruence.
  - intros k' t' Hk' Hcov'.
    exact (cover_unique _ _ _ _ _ _ (inv_order _ HI) Hk' Hlk Hcov' Hcov).
Qed.

Lemma tokenizer_total_witness :
  ∃ toks k t, tokenizer (js "a b") = Some toks ∧ toks !! k = Some t ∧
    covers t 2 ∧ base (type t) = Word.
Proof.
  destruct (tokenizer_total (js "a b")) as (toks&Ht&H).
  destruct (H 2 98%N eq_refl eq_refl) as (ty&Hk&_&k&t&Hl&Hc&Hb&_).
  exists toks, k, t. split_and!; try done.
  rewrite Hb. vm_compute in Hk. congruence.
Defined.

Lemma final_token_ok final t :
  Inv final → t ∈ tokenList final →
  token_ok (input final) (index final) t.
Proof.
  intros HI Ht. pose proof (inv_tokens _ HI) as HF.
  rewrite Forall_forall in HF. by apply HF.
Qed.

Lemma followed_iff final t :
  Inv final → index final = length (input final) → t ∈ tokenList final →
  followed (tokenList final) t ↔
  end_ t < length (input final) ∧
  isNewLine (charAt (input final) (end_ t)) = false.
Proof.
  intros HI Hx Ht. pose proof (final_token_ok _ _ HI Ht) as Hok.
  destruct (ok_span _ _ _ Hok) as [Hs He]. split.
  - intros (t'&Ht'&Hst).
    pose proof (final_token_ok _ _ HI Ht') as Hok'.
    destruct (ok_span _ _ _ Hok') as [Hs' He'].
    assert (Hlt : end_ t < length (input final)) by lia.
    split; [done|].
    destruct (lookup_lt_is_Some_2 _ _ Hlt) as [c Hc].
    rewrite (charAt_Some _ _ _ Hc).
    assert (Hcov : covers t' (end_ t)) by (unfold covers; lia).
    pose proof (ok_kind _ _ _ Hok' _ _ Hcov Hc) as Hk.
    by apply charKind_Some in Hk.
  - intros [Hlt Hnl].
    destruct (lookup_lt_is_Some_2 _ _ Hlt) as [c Hc].
    rewrite (charAt_Some _ _ _ Hc) in Hnl.
    destruct (inv_cover _ HI (end_ t) c) as (t'&Ht'&Hcov'); try done; [lia| |].
    { intros Hk. apply charKind_None in Hk. congruence. }
    exists t'. split; [done|].
    destruct (decide (start t' = end_ t)) as [|Hne]; [done|exfalso].
    destruct Hcov' as [Hc1 Hc2].
    apply list_elem_of_lookup_1 in Ht as [j Hj].
    apply list_elem_of_lookup_1 in Ht' as [k Hk].
    assert (j = k).
    { apply (cover_unique _ j k t t' (end_ t - 1) (inv_order _ HI) Hj Hk);
        unfold covers; lia. }
    subst k. rewrite Hj in Hk. inversion Hk; subst t'. lia.
Qed.

(** Claim C4, amended: a token is a [Keyword] only if its text is a reserved
    word; a token whose text is a reserved word is a [Keyword] when another
    token begins at the offset where it ends, and stays a [Word] otherwise;
    and a token begins there exactly when the input has a character at that
    offset that is not a line-break character.  So a reserved word that ends
    the input or the line keeps the kind [Word]. *)
Theorem keyword_retag inp :
  ∃ toks, tokenizer inp = Some toks ∧
    ∀ t, t ∈ toks →
      (type t = Keyword → isKeyword (value t) = true) ∧
      (isKeyword (value t) = true →
         (followed toks t → type t = Keyword) ∧
         (¬ followed toks t → type t = Word)) ∧
      (followed toks t ↔
         end_ t < length inp ∧ isNewLine (charAt inp (end_ t)) = false).
Proof.
  destruct (tokenizer_inv inp) as (final&_&Htok&HI&Hin&Hx).
  exists (tokenList final). split; [done|]. intros t Ht.
  pose proof (final_token_ok _ _ HI Ht) as Hok.
  assert (Hx' : index final = length (input final)) by congruence.
  pose proof (followed_iff _ _ HI Hx' Ht) as Hf. rewrite Hin in Hf.
  pose proof (ok_keyword _ _ _ Hok) as Hkw. rewrite Hin, Hx in Hkw.
  split_and!; try done.
  - intros HK. by apply Hkw in HK as [? _].
  - intros Hv. split.
    + intros Hfo. apply Hkw. apply Hf in Hfo as [? ?]. by split_and!.
    + intros Hnf. pose proof (keyword_is_word _ _ _ Hok Hv) as Hb.
      destruct (type t) eqn:E; try done.
      exfalso. apply Hnf, Hf. destruct Hkw as [Hkw _].
      by destruct (Hkw eq_refl) as (_&?&?).
Qed.

Lemma keyword_retag_witness :
  ∃ toks, tokenizer (js "if x") = Some toks ∧
    ∀ t, t ∈ toks → type t = Keyword → isKeyword (value t) = true.
Proof.
  destruct (keyword_retag (js "if x")) as (toks&Ht&H).
  exists toks. split; [exact Ht|]. intros t Hin. by destruct (H t Hin) as [? _].
Defined.

(** Claim C4 fails as stated: in the input [alias], line feed, [foo] the
    token [alias] is followed by a token and is still a [Word]. *)
Lemma keyword_before_line_break_not_retagged :
  ¬ retagged_iff_followed (js "alias" ++ [10%N] ++ js "foo").
Proof.
  intros H.
  assert (E : tokenizer (js "alias" ++ [10%N] ++ js "foo") =
              Some [mkToken Word (js "alias") 0 5 0 0;
                    mkToken Word (js "foo") 6 9 1 0])
    by (vm_compute; reflexivity).
  destruct (H _ 0 _ E eq_refl) as [_ Hk].
  - vm_compute; reflexivity.
  - discriminate Hk. by eexists.
Qed.

(** Claim C5, amended: the line counter ends at the number of line breaks,
    where a line break is a line-break character together with the next
    character when that is the other line-break character (CR LF or LF CR);
    and the iteration on a line-break character adds no token, closes the
    open token, increments the line, resets the column to 0 and advances by
    two characters in that case, by one otherwise. *)
Theorem line_breaks inp :
  (∃ final, run inp = Some final ∧ position_line final = lineBreaks inp) ∧
  (∀ this c, input this = inp → inp !! index this = Some c →
     isNewLine [c] = true →
     let next := charAt inp (index this + 1) in
     tokenList (step this) = tokenList this ∧
     lastToken (step this) = None ∧
     position_line (step this) = position_line this + 1 ∧
     position_col (step this) = 0 ∧
     index (step this) =
       index this +
       (if negb (bool_decide ([c] = next)) && isNewLine next then 2 else 1)).
Proof.
  split.
  - destruct (tokenizer_inv inp) as (final&Hr&_&HI&Hin&Hx).
    exists final. split; [done|].
    pose proof (inv_lines _ HI) as HL. rewrite Hin, Hx in HL.
    rewrite drop_all in HL. simpl in HL. lia.
  - intros this c <- Hc Hnl next. subst next.
    apply charKind_None in Hnl. rewrite (step_newline _ _ Hc Hnl).
    unfold pushNewLine, getSafeString. simpl. split_and!; try done.
    destruct (negb (bool_decide ([c] = charAt (input this) (index this + 1))) &&
              isNewLine (charAt (input this) (index this + 1))); lia.
Qed.

Lemma line_breaks_witness :
  (∃ final, run [13%N; 10%N; 97%N] = Some final ∧ position_line final = 1) ∧
  index (step (init [13%N; 10%N; 97%N])) = 2.
Proof.
  destruct (line_breaks [13%N; 10%N; 97%N]) as [H1 H2]. split; [exact H1|].
  by destruct (H2 (init [13%N; 10%N; 97%N]) 13%N eq_refl eq_refl eq_refl)
    as (_&_&_&_&?).
Defined.

(** Claim C5 fails as stated: LF followed by CR is one line break for [run],
    two in the words of the specification. *)
Lemma lf_cr_is_one_break : ¬ breaks_as_specified [10%N; 13%N].
Proof.
  intros H.
  assert (E : run [10%N; 13%N] = Some (mkState [10%N; 13%N] 2 1 0 None []))
    by (vm_compute; reflexivity).
  specialize (H _ E). vm_compute in H. discriminate.
Qed.

(** Claim C7: two adjacent characters that are both of kind Word, or both of
    kind Whitespace, lie in the span of one token, whose text is that slice
    of the input; two adjacent characters of kind Sign are two consecutive
    tokens of kind Sign, each one character long. *)
Theorem adjacent_characters inp i c1 c2 :
  inp !! i = Some c1 → inp !! (i + 1) = Some c2 →
  ∃ toks, tokenizer inp = Some toks ∧
    (∀ ty, ty = Word ∨ ty = Whitespace →
       charKind c1 = Some ty → charKind c2 = Some ty →
       ∃ t, t ∈ toks ∧ covers t i ∧ covers t (i + 1) ∧ slice inp t ∧
            base (type t) = ty) ∧
    (charKind c1 = Some Sign → charKind c2 = Some Sign →
       ∃ k t1 t2, toks !! k = Some t1 ∧ toks !! (k + 1) = Some t2 ∧
         type t1 = Sign ∧ value t1 = [c1] ∧ start t1 = i ∧ end_ t1 = i + 1 ∧
         type t2 = Sign ∧ value t2 = [c2] ∧ start t2 = i + 1 ∧
         end_ t2 = i + 2).
Proof.
  intros H1 H2.
  destruct (tokenizer_inv inp) as (final&_&Htok&HI&Hin&Hx).
  exists (tokenList final). split; [done|].
  pose proof (lookup_lt_Some _ _ _ H1) as Hlt1.
  pose proof (lookup_lt_Some _ _ _ H2) as Hlt2.
  assert (Hcover : ∀ j c ty, inp !! j = Some c → charKind c = Some ty →
            ∃ k t, tokenList final !! k = Some t ∧ covers t j ∧
                   token_ok inp (length inp) t ∧ base (type t) = ty).
  { intros j c ty Hj Hk. pose proof (lookup_lt_Some _ _ _ Hj).
    destruct (inv_cover _ HI j c) as (t&Ht&Hcov);
      [lia|by rewrite Hin|congruence|].
    pose proof (final_token_ok _ _ HI Ht) as Hok. rewrite Hin, Hx in Hok.
    apply list_elem_of_lookup_1 in Ht as [k Hk'].
    exists k, t. split_and!; try done.
    pose proof (ok_kind _ _ _ Hok _ _ Hcov Hj). congruence. }
  split.
  - intros ty Hty Hk1 Hk2.
    destruct (Hcover _ _ _ H2 Hk2) as (k&t&Hk&Hcov&Hok&Hb).
    exists t. split_and!; try done.
    + by eapply list_elem_of_lookup_2.
    + destruct Hcov as [Hs He]. split; [|lia].
      destruct (decide (start t = i + 1)) as [Heq|]; [exfalso|lia].
      assert (base (type t) = Sign).
      { apply (ok_start _ _ _ Hok i c1); [lia|done|by rewrite Hb]. }
      destruct Hty; congruence.
    + apply (ok_slice _ _ _ Hok).
  - intros Hk1 Hk2.
    destruct (Hcover _ _ _ H1 Hk1) as (j&t1&Hj&Hcov1&Hok1&Hb1).
    destruct (Hcover _ _ _ H2 Hk2) as (k&t2&Hk&Hcov2&Hok2&Hb2).
    apply base_Sign in Hb1, Hb2.
    pose proof (ok_sign _ _ _ Hok1 Hb1) as He1.
    pose proof (ok_sign _ _ _ Hok2 Hb2) as He2.
    destruct Hcov1 as [Hc1 Hc1'], Hcov2 as [Hc2 Hc2'].
    assert (Hs1 : start t1 = i) by lia.
    assert (Hs2 : start t2 = i + 1) by lia.
    pose proof (inv_order _ HI) as HO.
    assert (Hjk : k = j + 1).
    { destruct (Nat.lt_trichotomy j k) as [Hlt|[->|Hlt]].
      - destruct (decide (k = j + 1)) as [|Hne]; [done|exfalso].
        assert (Hm : j + 1 < length (tokenList final)).
        { pose proof (lookup_lt_Some _ _ _ Hk). lia. }
        destruct (lookup_lt_is_Some_2 _ _ Hm) as [tm Htm].
        assert (Hokm : token_ok (input final) (index final) tm).
        { apply (final_token_ok _ _ HI). by eapply list_elem_of_lookup_2. }
        destruct (ok_span _ _ _ Hokm) as [Hsm _].
        assert (end_ t1 ≤ start tm) by (apply (HO j (j + 1)); [lia|done..]).
        assert (end_ tm ≤ start t2) by (apply (HO (j + 1) k); [lia|done..]).
        lia.
      - rewrite Hj in Hk. inversion Hk; subst. lia.
      - pose proof (HO _ _ _ _ Hlt Hk Hj). lia. }
    subst k. exists j, t1, t2. split_and!; try done; try lia.
    + rewrite (ok_slice _ _ _ Hok1), He1, Hs1, (drop_S _ _ _ H1).
      by replace (i + 1 - i) with 1 by lia.
    + replace (S i) with (i + 1) in * by lia.
      rewrite (ok_slice _ _ _ Hok2), He2, Hs2.
      rewrite (drop_S _ _ _ H2).
      by replace (i + 1 + 1 - (i + 1)) with 1 by lia.
Qed.

Lemma adjacent_characters_witness :
  ∃ toks, tokenizer (js "ab((") = Some toks ∧
    (∃ t, t ∈ toks ∧ covers t 0 ∧ covers t 1) ∧
    (∃ k t1 t2, toks !! k = Some t1 ∧ toks !! (k + 1) = Some t2 ∧
       start t1 = 2 ∧ start t2 = 3).
Proof.
  destruct (adjacent_characters (js "ab((") 0 97%N 98%N eq_refl eq_refl)
    as (toks&Ht&Hw&_).
  destruct (adjacent_characters (js "ab((") 2 40%N 40%N eq_refl eq_refl)
    as (toks'&Ht'&_&Hs).
  assert (toks' = toks) as -> by congruence.
  exists toks. split; [exact Ht|]. split.
  - destruct (Hw Word (or_introl eq_refl) eq_refl eq_refl)
      as (t&Hin&Hc0&Hc1&_).
    exists t. by split_and!.
  - destruct (Hs eq_refl eq_refl) as (k&t1&t2&H1&H2&_&_&Hs1&_&_&_&Hs2&_).
    exists k, t1, t2. by split_and!.
Defined.

End TokenizerFacts.

(** * Properties of the parser *)

Module ParserFacts.

Import Tokenizer Parser ParserSpec.

Lemma spawn_rule obj i rule token m :
  Collector.ruleList obj !! i = Some rule → rule token = Collector.Spawn m →
  i = 5 ∧ m = Collector.newStringLiteralCollector.
Proof.
  intros Hr Hm. destruct obj; simpl in Hr;
    do 8 (try (destruct i as [|i]; simpl in Hr;
            [inversion Hr; subst; simpl in Hm; try discriminate|]));
    try done.
  by inversion Hm.
Qed.

Lemma bind_Ok {A B} (m : Result A) (f : A → Result B) b :
  m ≫= f = Ok b → ∃ a, m = Ok a ∧ f a = Ok b.
Proof. destruct m; simpl; [eauto|done]. Qed.

Ltac inv_bind :=
  repeat match goal with
  | H : _ ≫= _ = Ok _ |- _ =>
      let a := fresh "a" in
      apply bind_Ok in H as (a & ? & H); try destruct a; simpl in H
  end.

(** The outcomes of feeding a token to the collector at [this]. *)
Lemma next_token h this token r :
  Collector.next h this (inl token) = Ok r →
  ∃ obj, h !! this = Some obj ∧
    (r = (h, None) ∨
     (r = (h ++ [Collector.newStringLiteralCollector], Some (length h)) ∧
      Collector.index (Collector.fields obj) = 5) ∨
     (∃ obj', r = (<[this := obj']> h, None))).
Proof.
  unfold Collector.next. intros H.
  destruct (h !! this) as [obj|] eqn:Hobj; [|done].
  exists obj. split; [done|].
  destruct (Collector.skipWhitespace (Collector.fields obj) &&
            bool_decide (type token = Whitespace)).
  { inversion H. by left. }
  destruct (Collector.ruleList obj !! Collector.index (Collector.fields obj))
    as [rule|] eqn:Hrule; [|done].
  destruct (rule token) as [[|]|m] eqn:Hrt; [| done |].
  - inversion H. right. right. by eexists.
  - destruct (spawn_rule _ _ _ _ _ Hrule Hrt) as [Hi ->].
    inversion H. right. by left.
Qed.

Lemma measure_advance s s' :
  tokenList s' = tokenList s → index s' = index s + 1 →
  index s < length (tokenList s) → measure s' < measure s.
Proof.
  intros Ht Hi Hlt. unfold measure. rewrite Ht, Hi.
  destruct (fresh s), (fresh s'); lia.
Qed.

Lemma iteration_decreases s s' :
  iteration s = Ok s' →
  tokenList s' = tokenList s ∧ measure s' < measure s.
Proof.
  unfold iteration. intros H.
  destruct (tokenList s !! index s) as [token|] eqn:Htok; [|done].
  pose proof (lookup_lt_Some _ _ _ Htok) as Hlt.
  assert (Hadv : tokenList s' = tokenList s → index s' = index s + 1 →
                 tokenList s' = tokenList s ∧ measure s' < measure s).
  { intros. split; [done|]. by apply measure_advance. }
  destruct (node s) as [n0|] eqn:Hn, (collector s) as [c0|] eqn:Hc.
  2-4: case_bool_decide; inversion H; subst; simpl;
       try (by apply Hadv); (split; [done|]);
       unfold measure, fresh; simpl;
       rewrite ?Hn, ?Hc, ?list_lookup_middle by done; simpl;
       try (destruct n0); try lia.
  destruct (Collector.next (heap s) c0 (inl token)) as [[h1 nc]|] eqn:Hnext;
    [|done].
  destruct (next_token _ _ _ _ Hnext) as (obj&Hobj&Hcases).
  simpl in H.
  destruct Hcases as [[= -> ->]|[[[= -> ->] Hi]|[obj' [= -> ->]]]].
  - repeat case_match; simplify_eq; simpl in *; inv_bind; simplify_eq;
      by apply Hadv.
  - rewrite list_lookup_middle in H by done. simpl in H.
    inversion H; subst; simpl. split; [done|].
    unfold measure, fresh; simpl. rewrite Hn, Hc, Hobj, Hi.
    rewrite list_lookup_middle by done. simpl. lia.
  - repeat case_match; simplify_eq; simpl in *; inv_bind; simplify_eq;
      by apply Hadv.
Qed.

(** The loop ends: the measure bounds the iterations. *)
Lemma run_loop_total fuel s :
  measure s < fuel → ∃ r, run_loop fuel s = Some r.
Proof.
  revert s. induction fuel as [|fuel IH]; intros s Hm; [lia|].
  simpl. case_bool_decide; [|by eexists].
  destruct (iteration s) as [s'|e] eqn:E; [|by eexists].
  apply IH. apply iteration_decreases in E as [_ ?]. lia.
Qed.

Lemma run_loop_more fuel fuel' s r :
  run_loop fuel s = Some r → fuel ≤ fuel' → run_loop fuel' s = Some r.
Proof.
  revert fuel' s. induction fuel as [|fuel IH]; intros fuel' s H Hle; [done|].
  destruct fuel' as [|fuel']; [lia|]. simpl in *.
  case_bool_decide; [|done].
  destruct (iteration s); [|done]. apply IH; [done|lia].
Qed.

Lemma reaches_end s :
  length (tokenList s) ≤ index s → reaches s (Ok s).
Proof.
  intros H. exists 1. simpl. rewrite bool_decide_eq_false_2; [done|lia].
Qed.

Lemma reaches_step s s' r :
  index s < length (tokenList s) → iteration s = Ok s' →
  reaches s' r → reaches s r.
Proof.
  intros Hlt Hi [fuel Hr]. exists (S fuel). simpl.
  by rewrite bool_decide_eq_true_2, Hi.
Qed.

Lemma reaches_throw s e :
  index s < length (tokenList s) → iteration s = Throw e →
  reaches s (Throw e).
Proof.
  intros Hlt Hi. exists 1. simpl. by rewrite bool_decide_eq_true_2, Hi.
Qed.

Lemma reaches_run tokens r :
  reaches (init tokens) r → run tokens = Some r.
Proof.
  intros [fuel Hr]. unfold run.
  destruct (run_loop_total (2 * length tokens + 2) (init tokens)) as [r' Hr'].
  { unfold measure. simpl. lia. }
  rewrite Hr'. f_equal.
  pose proof (run_loop_more _ (fuel + (2 * length tokens + 2)) _ _ Hr) as H1.
  pose proof (run_loop_more _ (fuel + (2 * length tokens + 2)) _ _ Hr') as H2.
  rewrite H1 in H2 by lia. specialize (H2 ltac:(lia)). congruence.
Qed.

Lemma reaches_parser tokens r :
  reaches (init tokens) r → parser tokens = Some (ast <$> r).
Proof. intros H. unfold parser. by rewrite (reaches_run _ _ H). Qed.

Lemma reaches_steps n s s' r :
  steps n s = Some s' → reaches s' r → reaches s r.
Proof.
  revert s. induction n as [|n IH]; intros s H Hr; simpl in H.
  - by inversion H.
  - case_bool_decide; [|done].
    destruct (iteration s) as [s1|] eqn:E; [|done].
    eapply reaches_step; eauto.
Qed.

Lemma steps_tokenList n s s' :
  steps n s = Some s' → tokenList s' = tokenList s.
Proof.
  revert s. induction n as [|n IH]; intros s H; simpl in H.
  - by inversion H.
  - case_bool_decide; [|done].
    destruct (iteration s) as [s1|] eqn:E; [|done].
    apply iteration_decreases in E as [E _]. rewrite <- E. by apply IH.
Qed.

(** At top level, a token other than [alias] is consumed and nothing else
    changes. *)
Lemma top_level_other s t :
  tokenList s !! index s = Some t → value t ≠ js "alias" →
  (node s = None ∨ collector s = None) →
  iteration s =
  Ok (mkState (index s + 1) (tokenList s) (ast_body s) (collectorStack s)
        (node s) (collector s) (heap s)).
Proof.
  intros Ht Hv Hn. unfold iteration. rewrite Ht.
  rewrite (bool_decide_eq_false_2 _ Hv).
  destruct Hn as [-> | ->]; [done|]. by destruct (node s).
Qed.

Lemma top_level_run n s :
  length (tokenList s) - index s = n →
  node s = None → collector s = None →
  (∀ i t, index s ≤ i → tokenList s !! i = Some t → value t ≠ js "alias") →
  ∃ final, reaches s (Ok final) ∧ ast_body final = ast_body s ∧
           heap final = heap s.
Proof.
  revert s. induction n as [|n IH]; intros s Hlen Hn Hc Hall.
  - exists s. split; [|done]. apply reaches_end. lia.
  - assert (Hlt : index s < length (tokenList s)) by lia.
    destruct (lookup_lt_is_Some_2 _ _ Hlt) as [t Ht].
    pose proof (top_level_other s t Ht (Hall _ _ (Nat.le_refl _) Ht)
                  (or_introl Hn)) as Hit.
    destruct (IH (mkState (index s + 1) (tokenList s) (ast_body s)
                    (collectorStack s) (node s) (collector s) (heap s)))
      as (final&Hr&Hb&Hh); simpl; try done; [lia| |].
    + intros i t' Hi. apply Hall. lia.
    + exists final. split; [|done]. by eapply reaches_step.
Qed.

(** Claim C9: on a token sequence without a token whose text is [alias],
    [parser] returns a program with an empty body. *)
Theorem no_alias_no_statement tokens :
  (∀ t, t ∈ tokens → value t ≠ js "alias") →
  parser tokens = Some (Ok (mkProgram [])).
Proof.
  intros Hall.
  destruct (top_level_run (length tokens) (init tokens)) as (final&Hr&Hb&Hh);
    simpl; try done; [lia| |].
  - intros i t _ Ht. apply Hall. by eapply list_elem_of_lookup_2.
  - rewrite (reaches_parser _ _ Hr). simpl in *.
    unfold ast. by rewrite Hb.
Qed.

Lemma no_alias_no_statement_witness :
  parser [mkToken Word (js "xyz") 0 3 0 0; mkToken Sign (js "(") 3 4 0 1] =
  Some (Ok (mkProgram [])).
Proof.
  apply no_alias_no_statement. intros t Ht.
  repeat (apply elem_of_cons in Ht as [->|Ht]; [by vm_compute|]).
  by apply elem_of_nil in Ht.
Defined.

Lemma alias_foo_tokens : tokenizer (js "alias foo") = Some alias_foo.
Proof. vm_compute. reflexivity. Qed.

(** Claim C3 fails as stated: on the tokens of [alias foo] the loop ends with
    a collector on the stack and [parser] returns a program. *)
Lemma incomplete_statement_returns :
  tokenizer (js "alias foo") = Some alias_foo ∧
  ¬ incomplete_statement_fails alias_foo.
Proof.
  split; [apply alias_foo_tokens|]. intros H.
  destruct (steps 4 (init alias_foo)) as [s|] eqn:E; [|by vm_compute in E].
  assert (Hp : parser alias_foo = Some (Ok (mkProgram [])))
    by (vm_compute; reflexivity).
  destruct (H 4 s E) as [e He].
  - vm_compute in E. inversion E; subst. simpl. lia.
  - vm_compute in E. by inversion E; subst.
  - congruence.
Qed.

(** Claim C8: when the loop feeds a token that is not whitespace to the
    current collector and the rule under that collector's cursor answers
    [false], [parser] throws [Error]: no program is returned and no other
    rule is tried. *)
Theorem mismatch_is_fatal tokens n s token nd c obj rule :
  steps n (init tokens) = Some s →
  tokens !! index s = Some token →
  node s = Some nd → collector s = Some c → heap s !! c = Some obj →
  type token ≠ Whitespace →
  Collector.ruleList obj !! Collector.index (Collector.fields obj) = Some rule →
  rule token = Collector.Bool false →
  parser tokens = Some (Throw Error).
Proof.
  intros Hs Htok Hn Hc Hobj Hty Hrule Hfalse.
  pose proof (steps_tokenList _ _ _ Hs) as Htl. simpl in Htl.
  assert (Hit : iteration s = Throw Error).
  { unfold iteration. rewrite Htl, Htok, Hn, Hc. unfold Collector.next.
    rewrite Hobj, (bool_decide_eq_false_2 _ Hty), andb_false_r.
    by rewrite Hrule, Hfalse. }
  assert (Hr : reaches (init tokens) (Throw Error)).
  { eapply reaches_steps; [done|]. apply reaches_throw; [|done].
    rewrite Htl. by eapply lookup_lt_Some. }
  by rewrite (reaches_parser _ _ Hr).
Qed.

Lemma mismatch_is_fatal_witness :
  parser (alias_foo ++ [mkToken Sign (js "(") 9 10 0 3]) = Some (Throw Error).
Proof.
  eapply (mismatch_is_fatal _ 4);
    [vm_compute; reflexivity|reflexivity|reflexivity|reflexivity|reflexivity
    |discriminate|reflexivity|reflexivity].
Defined.

Lemma iteration_retok s idx' tl' :
  tl' !! idx' = tokenList s !! index s →
  iteration (retok idx' tl' s) =
  (λ s', retok (index s' + idx' - index s) tl' s') <$> iteration s.
Proof.
  intros Hl. unfold iteration, retok. simpl. rewrite Hl.
  destruct (tokenList s !! index s) as [t|]; [|done].
  assert (E1 : idx' + 1 = index s + 1 + idx' - index s) by lia.
  assert (E2 : idx' + 1 - 1 = index s + 1 - 1 + idx' - index s) by lia.
  rewrite E2, E1.
  destruct (node s), (collector s); simpl;
    try (case_bool_decide; done).
  destruct (Collector.next (heap s) _ _) as [[h1 [nc|]]|]; simpl; try done.
  - destruct (h1 !! nc); [|done].
    destruct (Collector.complete _); [|done].
    destruct (Collector.compose _); simpl; [|done].
    destruct (at_last _); [|done].
    by destruct (Collector.next _ _ _) as [[? ?]|].
  - destruct (h1 !! _); [|done].
    destruct (Collector.complete _); [|done].
    destruct (Collector.compose _); simpl; [|done].
    destruct (at_last _); [|done].
    by destruct (Collector.next _ _ _) as [[? ?]|].
Qed.

Lemma iteration_shift pre s :
  iteration (shift pre s) = shift pre <$> iteration s.
Proof.
  pose proof (iteration_retok s (length pre + index s) (pre ++ tokenList s))
    as H.
  unfold retok in H. unfold shift. rewrite H.
  - destruct (iteration s) as [s'|] eqn:E; [|done]. simpl.
    pose proof (iteration_decreases _ _ E) as [-> _].
    f_equal. f_equal. lia.
  - rewrite lookup_app_r by lia. f_equal. lia.
Qed.

Lemma run_loop_shift pre fuel s :
  run_loop fuel (shift pre s) = fmap (M:=Result) (shift pre) <$> run_loop fuel s.
Proof.
  revert s. induction fuel as [|fuel IH]; intros s; [done|].
  cbn [run_loop]. rewrite iteration_shift.
  assert (Hg : bool_decide (index (shift pre s) < length (tokenList (shift pre s)))
               = bool_decide (index s < length (tokenList s))).
  { apply bool_decide_ext. simpl. rewrite length_app. lia. }
  rewrite Hg.
  destruct (bool_decide (index s < length (tokenList s))); [|reflexivity].
  destruct (iteration s) as [s'|]; simpl; [apply IH|reflexivity].
Qed.

Lemma returns_parser tokens p :
  returns (init tokens) p → parser tokens = Some p.
Proof. intros (r&Hr&<-). by apply reaches_parser. Qed.

Lemma returns_shift pre s p : returns s p → returns (shift pre s) p.
Proof.
  intros (r&[fuel Hr]&<-). exists (shift pre <$> r). split.
  - exists fuel. by rewrite run_loop_shift, Hr.
  - by destruct r.
Qed.

Lemma returns_end s : tokenList s = [] → returns s (Ok (ast s)).
Proof.
  intros H. exists (Ok s). split; [|done]. apply reaches_end.
  rewrite H. simpl. lia.
Qed.

(** One iteration on the first token of the remaining input: the outcome
    of the run is that of the run that follows. *)
Lemma returns_feed t rest B St N C H r p :
  iteration (mkState 0 [t] B St N C H) = r →
  match r with
  | Ok s' =>
      returns (retok 0 match index s' with 0 => t :: rest | S _ => rest end s') p
  | Throw e => p = Throw e
  end →
  returns (mkState 0 (t :: rest) B St N C H) p.
Proof.
  intros Hit Hr.
  pose proof (iteration_retok (mkState 0 [t] B St N C H) 0 (t :: rest) eq_refl)
    as Hit'.
  unfold retok at 1 in Hit'. simpl in Hit'. rewrite Hit in Hit'.
  destruct r as [s'|e]; simpl in Hit'.
  - assert (Hidx : index s' ≤ 1).
    { clear Hr Hit'. unfold iteration in Hit. simpl in Hit.
      repeat case_match; simplify_eq; simpl in *; inv_bind;
        repeat case_match; simplify_eq; simpl in *; inv_bind; simplify_eq;
        simpl; lia. }
    destruct (index s') as [|i] eqn:Ei.
    + destruct Hr as (r&Hr&<-). exists r. split; [|done].
      eapply reaches_step; [simpl; lia|done|].
      by rewrite Nat.add_0_r, Nat.sub_0_r.
    + assert (i = 0) as -> by lia.
      apply (returns_shift [t]) in Hr.
      destruct Hr as (r&Hr&<-). exists r. split; [|done].
      eapply reaches_step; [simpl; lia|done|].
      by rewrite Nat.add_0_r, Nat.sub_0_r.
  - subst p. exists (Throw e). split; [|done].
    apply reaches_throw; [simpl; lia|done].
Qed.

(** An active, unfinished collector skips whitespace tokens. *)
Lemma returns_ws ws rest B St N C H obj p :
  Forall is_ws ws → H !! C = Some obj →
  Collector.skipWhitespace (Collector.fields obj) = true →
  Collector.complete (Collector.fields obj) = false →
  returns (mkState 0 rest B St (Some N) (Some C) H) p →
  returns (mkState 0 (ws ++ rest) B St (Some N) (Some C) H) p.
Proof.
  intros Hws Hobj Hskip Hc Hr. induction Hws as [|t ws Ht _ IH]; [done|].
  simpl. eapply returns_feed.
  - unfold iteration. simpl. unfold Collector.next.
    rewrite Hobj, Hskip, (bool_decide_eq_true_2 _ Ht). simpl.
    rewrite Hobj, Hc. reflexivity.
  - apply IH.
Qed.

Lemma ast_app (B : list Collector.addr) (H H' : Collector.Heap) :
  (∀ a, a ∈ B → a < length H) →
  omap (λ a, Collector.node <$> (H ++ H') !! a) B =
  omap (λ a, Collector.node <$> H !! a) B.
Proof.
  intros HB. apply list_omap_ext. apply Forall_Forall2_diag.
  rewrite Forall_forall. intros a Ha. by rewrite lookup_app_l by by apply HB.
Qed.

(** At top level whitespace tokens add nothing to the program: either they
    are dropped, or (a token whose text is [alias]) they start a statement
    that the end of the input leaves unfinished. *)
Lemma returns_top_level_ws ws B St H :
  Forall is_ws ws → (∀ a, a ∈ B → a < length H) →
  returns (mkState 0 ws B St None None H)
    (Ok (mkProgram (omap (λ a, Collector.node <$> H !! a) B))).
Proof.
  intros Hws HB. revert St. induction Hws as [|t ws Ht Hws IH]; intros St.
  - by apply returns_end.
  - destruct (decide (value t = js "alias")) as [Hv|Hv].
    + eapply returns_feed.
      * unfold iteration. simpl. rewrite (bool_decide_eq_true_2 _ Hv).
        reflexivity.
      * simpl.
        rewrite <- (app_nil_r (t :: ws)).
        eapply (returns_ws (t :: ws) []);
          [by constructor|by apply list_lookup_middle|done|done|].
        rewrite <- (ast_app B H [Collector.newAliasStatementCollector]) by done.
        by apply returns_end.
    + eapply returns_feed.
      * unfold iteration. simpl. rewrite (bool_decide_eq_false_2 _ Hv).
        reflexivity.
      * simpl. apply IH.
Qed.

Ltac feed :=
  eapply returns_feed; [vm_compute; reflexivity|unfold retok; simpl].

Ltac skip_ws :=
  eapply returns_ws; [eassumption|reflexivity|reflexivity|reflexivity|].

(** Claim C2: on the tokens [alias] (a keyword), Word, [#], Word, [(], double
    quote, Word, double quote, [)], with whitespace tokens anywhere after
    the first, [parser] returns one alias statement made of the texts of the
    three words, the packed name being the word right after [#]; a further
    word between that one and [(] makes [parser] throw. *)
Theorem alias_statement_grammar
    kw w1 hash w2 lp q1 w3 q2 rp ws0 ws1 ws2 ws3 ws4 ws5 ws6 ws7 ws8 :
  type kw = Keyword → value kw = js "alias" →
  type w1 = Word → is_sign (js "#") hash → type w2 = Word →
  is_sign (js "(") lp → is_sign quote q1 → type w3 = Word →
  is_sign quote q2 → is_sign (js ")") rp →
  Forall is_ws (ws0 ++ ws1 ++ ws2 ++ ws3 ++ ws4 ++ ws5 ++ ws6 ++ ws7 ++ ws8) →
  parser (kw :: ws0 ++ w1 :: ws1 ++ hash :: ws2 ++ w2 :: ws3 ++ lp :: ws4 ++
          q1 :: ws5 ++ w3 :: ws6 ++ q2 :: ws7 ++ rp :: ws8) =
  Some (Ok (mkProgram
    [AliasStatementNode
       (mkAliasStatement
          (mkAliasLiteral (value w1),
           mkPackedStatement (value w2) (mkStringLiteral (value w3))))])) ∧
  ∀ extra rest, type extra = Word → value extra ≠ js "(" →
    parser (kw :: ws0 ++ w1 :: ws1 ++ hash :: ws2 ++ w2 :: ws3 ++
            extra :: rest) =
    Some (Throw Error).
Proof.
  intros Hk1 Hk2 Hw1 [Hh1 Hh2] Hw2 [Hl1 Hl2] [Hq1 Hq1'] Hw3 [Hq2 Hq2']
    [Hr1 Hr2] Hws.
  repeat (apply Forall_app in Hws as [? Hws]).
  destruct kw, w1, hash, w2, lp, q1, w3, q2, rp. simpl in *. subst.
  split.
  - apply returns_parser. unfold init.
    feed. feed. skip_ws. feed. skip_ws. feed. skip_ws. feed. skip_ws.
    feed. skip_ws. feed. feed. skip_ws. feed. skip_ws. feed. skip_ws. feed.
    match goal with
    | |- returns (mkState 0 ?ws ?B ?St None None ?H) _ =>
        pose proof (returns_top_level_ws ws B St H) as HR
    end.
    apply HR; [done|]. intros a Ha.
    apply list_elem_of_singleton in Ha as ->. simpl. lia.
  - intros [ty v s e l c] rest Hty Hv. simpl in *. subst.
    apply returns_parser. unfold init.
    feed. feed. skip_ws. feed. skip_ws. feed. skip_ws. feed. skip_ws.
    eapply returns_feed.
    + unfold iteration. simpl. unfold Collector.next. simpl.
      unfold Collector.valueIs. rewrite (bool_decide_eq_false_2 _ Hv).
      reflexivity.
    + reflexivity.
Qed.

Lemma alias_statement_grammar_witness :
  parser
    [mkToken Keyword (js "alias") 0 5 0 0; mkToken Whitespace (js " ") 5 6 0 1;
     mkToken Word (js "foo") 6 9 0 2; mkToken Whitespace (js " ") 9 10 0 3;
     mkToken Sign (js "#") 10 11 0 4; mkToken Word (js "bar") 11 14 0 5;
     mkToken Sign (js "(") 14 15 0 6; mkToken Sign quote 15 16 0 7;
     mkToken Word (js "baz") 16 19 0 8; mkToken Sign quote 19 20 0 9;
     mkToken Sign (js ")") 20 21 0 10] =
  Some (Ok example_program).
Proof.
  refine (proj1 (alias_statement_grammar
    (mkToken Keyword (js "alias") 0 5 0 0) (mkToken Word (js "foo") 6 9 0 2)
    (mkToken Sign (js "#") 10 11 0 4) (mkToken Word (js "bar") 11 14 0 5)
    (mkToken Sign (js "(") 14 15 0 6) (mkToken Sign quote 15 16 0 7)
    (mkToken Word (js "baz") 16 19 0 8) (mkToken Sign quote 19 20 0 9)
    (mkToken Sign (js ")") 20 21 0 10)
    [mkToken Whitespace (js " ") 5 6 0 1] [mkToken Whitespace (js " ") 9 10 0 3]
    [] [] [] [] [] [] [] _ _ _ _ _ _ _ _ _ _ _));
    try reflexivity; try (split; reflexivity).
  repeat constructor.
Defined.

(** Claim C1 fails as stated: on the example of the specification [parser]
    throws, the word [bar] arriving where [(] is expected. *)
Lemma spec_example_throws :
  parse_source spec_example = Some (Throw Error) ∧
  parse_source spec_example ≠ Some (Ok example_program).
Proof.
  assert (E : parse_source spec_example = Some (Throw Error))
    by (vm_compute; reflexivity).
  split; [done|]. rewrite E. discriminate.
Qed.

(** Claim C1, amended: [alias foo #bar("baz")], the example without the number
    and the space after [#], parses to a program whose body is exactly one
    alias statement, made of the alias literal [foo] and the packed statement
    [bar] with the string literal [baz]; the example of the specification
    makes [parser] throw. *)
Theorem code_example_parses :
  parse_source code_example = Some (Ok example_program) ∧
  parse_source spec_example = Some (Throw Error).
Proof. split; vm_compute; reflexivity. Qed.

End ParserFacts.

(** * Further properties of the tokenizer *)

Module TokenizerMore.

Import Tokenizer TokenizerSpec TokenizerFacts PositionSpec.

(** A loop invariant on top of [Inv]. *)
Lemma run_loop_inv_more (J : State → Prop) fuel this :
  (∀ s, Inv s → J s → index s < length (input s) → J (step s)) →
  Inv this → J this → length (input this) - index this < fuel →
  ∃ final, run_loop fuel this = Some final ∧ Inv final ∧ J final ∧
           input final = input this ∧ index final = length (input this).
Proof.
  intros HJ. revert this.
  induction fuel as [|fuel IH]; intros this HI Hj Hf; [lia|].
  simpl. case_bool_decide as Hlt.
  - pose proof (step_index this). pose proof (step_input this) as Hin.
    destruct (IH (step this)) as (final&Hr&HIf&HJf&Hif&Hxf).
    + by apply step_inv.
    + by apply HJ.
    + rewrite Hin. lia.
    + exists final. rewrite Hr. split_and!; try done; congruence.
  - exists this. split_and!; try done. pose proof (inv_index _ HI). lia.
Qed.

Lemma run_inv_more (J : State → Prop) inp :
  (∀ s, Inv s → J s → index s < length (input s) → J (step s)) →
  J (init inp) →
  ∃ final, run inp = Some final ∧ tokenizer inp = Some (tokenList final) ∧
           Inv final ∧ J final ∧ input final = inp ∧ index final = length inp.
Proof.
  intros HJ H0.
  destruct (run_loop_inv_more J (S (length inp)) (init inp) HJ (Inv_init inp) H0)
    as (final&Hr&?&?&?&?); [simpl; lia|].
  exists final. unfold tokenizer, run. rewrite Hr. by split_and!.
Qed.

Lemma PosInv_init inp : PosInv (init inp).
Proof.
  split; simpl.
  - intros t Ht. by apply elem_of_nil in Ht.
  - intros t Ht. by apply elem_of_nil in Ht.
  - split; [done|]. intros t Ht. by apply elem_of_nil in Ht.
  - intros k t1 t2 H. by destruct k.
  - intros t H. done.
Qed.

Lemma pushNewLine_pos this c :
  PosInv this → input this !! index this = Some c →
  PosInv (pushNewLine [c] this).
Proof.
  intros HP Hc.
  assert (E : ∃ i, pushNewLine [c] this =
            mkState (input this) i (position_line this + 1) 0 None
              (tokenList this)).
  { destruct (pushNewLine_cases this c Hc) as [(n&_&_&_&->)|[_ ->]]; eauto. }
  destruct E as [i ->]. split; simpl.
  - apply (pos_line _ HP).
  - intros t Ht. pose proof (pos_le _ HP t Ht). lia.
  - split; [done|]. intros t Ht. pose proof (pos_le _ HP t Ht). lia.
  - apply (pos_next _ HP).
  - apply (pos_first _ HP).
Qed.

(** Replacing the last token by one with the same start, line and column. *)
Lemma pos_next_replace (l0 : list Token) t t' :
  (∀ k t1 t2, (l0 ++ [t]) !! k = Some t1 → (l0 ++ [t]) !! (k + 1) = Some t2 →
     next_token_pos t1 t2) →
  start t' = start t → line t' = line t → col t' = col t →
  ∀ k t1 t2, (l0 ++ [t']) !! k = Some t1 → (l0 ++ [t']) !! (k + 1) = Some t2 →
    next_token_pos t1 t2.
Proof.
  intros Hn Hs Hl Hc k t1 t2 H1 H2.
  apply lookup_snoc_Some in H2 as [[Hk H2]|[Hk <-]].
  - rewrite lookup_app_l in H1 by lia.
    apply (Hn k); by rewrite lookup_app_l by lia.
  - rewrite lookup_app_l in H1 by lia.
    assert (Hn' : next_token_pos t1 t).
    { apply (Hn k); [by rewrite lookup_app_l by lia|].
      rewrite Hk. by apply list_lookup_middle. }
    unfold next_token_pos in *. rewrite Hs, Hl, Hc. done.
Qed.

Lemma pos_next_push (l : list Token) x :
  (∀ k t1 t2, l !! k = Some t1 → l !! (k + 1) = Some t2 →
     next_token_pos t1 t2) →
  (∀ t, last l = Some t → next_token_pos t x) →
  ∀ k t1 t2, (l ++ [x]) !! k = Some t1 → (l ++ [x]) !! (k + 1) = Some t2 →
    next_token_pos t1 t2.
Proof.
  intros Hn Hx k t1 t2 H1 H2.
  apply lookup_snoc_Some in H2 as [[Hk H2]|[Hk <-]].
  - rewrite lookup_app_l in H1 by lia. by apply (Hn k).
  - rewrite lookup_app_l in H1 by lia. apply Hx.
    rewrite last_lookup. rewrite <- H1. f_equal. lia.
Qed.

Lemma first_snoc (l : list Token) x t :
  (l ++ [x]) !! 0 = Some t → l !! 0 = Some t ∨ (l = [] ∧ t = x).
Proof.
  destruct l as [|y l]; simpl; [intros [= <-]; by right|by left].
Qed.

Lemma pushToken_pos this c ty :
  Inv this → PosInv this → input this !! index this = Some c →
  PosInv (pushToken ty [c] this).
Proof.
  intros HI HP Hc.
  pose proof (pos_open _ HP) as Ho.
  assert (Hnew : line (newTok ty c this) +
                 lineBreaks (drop (start (newTok ty c this)) (input this)) =
                 lineBreaks (input this)) by apply (inv_lines _ HI).
  destruct (pushToken_cases this ty c HI) as
    [[HN ->]|(l0&t&Hl&HS&He&[(Hty&Hm&->)|(Hnm&->)])].
  - rewrite HN in Ho. destruct Ho as [Hcol Hlt]. split; simpl.
    + intros t Ht. apply elem_of_app in Ht as [Ht|Ht].
      * by apply (pos_line _ HP).
      * by apply list_elem_of_singleton in Ht as ->.
    + intros t Ht. apply elem_of_app in Ht as [Ht|Ht].
      * by apply (pos_le _ HP).
      * by apply list_elem_of_singleton in Ht as ->.
    + exists (newTok ty c this). rewrite last_snoc. by split_and!.
    + apply pos_next_push; [apply (pos_next _ HP)|].
      intros t Ht. right. simpl. split_and!.
      * apply closed_before; try done. by apply last_Some_elem_of.
      * apply Hlt. by apply last_Some_elem_of.
      * done.
    + intros t Ht. apply first_snoc in Ht as [Ht|[_ ->]]; [|done].
      by apply (pos_first _ HP).
  - rewrite HS in Ho. destruct Ho as (tl&Hlast&Hline&Hcol).
    rewrite Hl, last_snoc in Hlast. inversion Hlast; subst tl.
    pose proof (pos_next _ HP) as Hn. pose proof (pos_first _ HP) as Hf.
    pose proof (pos_line _ HP) as Hpl. pose proof (pos_le _ HP) as Hple.
    rewrite Hl in Hn, Hf, Hpl, Hple.
    split; simpl.
    + intros t' Ht'. apply elem_of_app in Ht' as [Ht'|Ht'].
      * apply Hpl. apply elem_of_app. by left.
      * apply list_elem_of_singleton in Ht' as ->. simpl.
        apply Hpl. apply elem_of_app. right. by apply list_elem_of_singleton.
    + intros t' Ht'. apply elem_of_app in Ht' as [Ht'|Ht'].
      * apply Hple. apply elem_of_app. by left.
      * apply list_elem_of_singleton in Ht' as ->. simpl. lia.
    + exists (extend [c] t). rewrite last_snoc. by split_and!.
    + by apply (pos_next_replace l0 t).
    + intros t' Ht'. apply first_snoc in Ht' as [Ht'|[-> ->]].
      * apply Hf. by rewrite lookup_app_l by (by eapply lookup_lt_Some).
      * simpl. by apply Hf.
  - rewrite HS in Ho. destruct Ho as (tl&Hlast&Hline&Hcol).
    rewrite Hl, last_snoc in Hlast. inversion Hlast; subst tl.
    pose proof (pos_next _ HP) as Hn. pose proof (pos_first _ HP) as Hf.
    pose proof (pos_line _ HP) as Hpl. pose proof (pos_le _ HP) as Hple.
    rewrite Hl in Hn, Hf, Hpl, Hple.
    assert (Hcs : start (closeTok t) = start t ∧ end_ (closeTok t) = end_ t ∧
                  line (closeTok t) = line t ∧ col (closeTok t) = col t).
    { unfold closeTok. by destruct (isKeyword (value t)). }
    destruct Hcs as (Hcs&Hce&Hcl&Hcc).
    rewrite (cons_middle (closeTok t)), app_assoc.
    split; simpl.
    + intros t' Ht'. apply elem_of_app in Ht' as [Ht'|Ht'].
      * apply elem_of_app in Ht' as [Ht'|Ht'].
        -- apply Hpl. apply elem_of_app. by left.
        -- apply list_elem_of_singleton in Ht' as ->. rewrite Hcs, Hcl.
           apply Hpl. apply elem_of_app. right. by apply list_elem_of_singleton.
      * by apply list_elem_of_singleton in Ht' as ->.
    + intros t' Ht'. apply elem_of_app in Ht' as [Ht'|Ht'].
      * apply elem_of_app in Ht' as [Ht'|Ht'].
        -- apply Hple. apply elem_of_app. by left.
        -- apply list_elem_of_singleton in Ht' as ->. rewrite Hcl. lia.
      * by apply list_elem_of_singleton in Ht' as ->.
    + exists (newTok ty c this). rewrite last_snoc. by split_and!.
    + apply pos_next_push; [by apply (pos_next_replace l0 t)|].
      intros t' Ht'. rewrite last_snoc in Ht'. inversion Ht'; subst t'.
      left. simpl. rewrite Hce, Hcl, Hcc. split_and!; [done|done|lia].
    + intros t' Ht'. apply first_snoc in Ht' as [Ht'|[E _]].
      * apply first_snoc in Ht' as [Ht'|[-> ->]].
        -- apply Hf. by rewrite lookup_app_l by (by eapply lookup_lt_Some).
        -- rewrite Hcc. by apply Hf.
      * by destruct l0.
Qed.

Lemma step_pos this :
  Inv this → PosInv this → index this < length (input this) →
  PosInv (step this).
Proof.
  intros HI HP Hlt. destruct (lookup_lt_is_Some_2 _ _ Hlt) as [c Hc].
  destruct (charKind c) as [ty|] eqn:Hk.
  - rewrite (step_token _ _ _ Hc Hk). by apply pushToken_pos.
  - rewrite (step_newline _ _ Hc Hk). by apply pushNewLine_pos.
Qed.

Lemma tokenizer_pos inp :
  ∃ final, tokenizer inp = Some (tokenList final) ∧ Inv final ∧
           PosInv final ∧ input final = inp ∧ index final = length inp.
Proof.
  destruct (run_inv_more PosInv inp step_pos (PosInv_init inp))
    as (final&_&?&?&?&?&?).
  exists final. by split_and!.
Qed.

(** Line breaks before a character that is not a line break, and after. *)
Lemma lineBreaks_app a c b :
  isNewLine [c] = false →
  lineBreaks (a ++ c :: b) = lineBreaks a + lineBreaks (c :: b).
Proof.
  intros Hc. remember (length a) as n eqn:Hn. revert a Hn.
  induction n as [n IH] using lt_wf_ind. intros a Hn.
  destruct a as [|x a]; [done|].
  destruct (isNewLine [x]) eqn:Ex.
  - rewrite <- app_comm_cons, !(lineBreaks_newline _ _ Ex).
    destruct a as [|y a].
    + cbn [app]. rewrite Hc, andb_false_r.
      change (lineBreaks []) with 0. lia.
    + rewrite <- app_comm_cons.
      destruct (negb (bool_decide (x = y)) && isNewLine [y]).
      * rewrite (IH (length a)); [lia| |done]. simpl in Hn. lia.
      * rewrite app_comm_cons, (IH (length (y :: a))); [lia| |done].
        simpl in *. lia.
  - rewrite <- app_comm_cons, !(lineBreaks_other _ _ Ex).
    apply (IH (length a)); [|done]. simpl in Hn. lia.
Qed.

Lemma value_elem inp idx t c :
  token_ok inp idx t → c ∈ value t →
  ∃ i, covers t i ∧ inp !! i = Some c.
Proof.
  intros Hok Hc. rewrite (ok_slice _ _ _ Hok) in Hc.
  apply list_elem_of_lookup_1 in Hc as [i Hi].
  apply lookup_take_Some in Hi as [Hi Hlt]. rewrite lookup_drop in Hi.
  exists (start t + i). split; [unfold covers; lia|done].
Qed.

Lemma value_length inp idx t :
  token_ok inp idx t → idx ≤ length inp →
  length (value t) = end_ t - start t.
Proof.
  intros Hok Hle. destruct (ok_span _ _ _ Hok).
  rewrite (ok_slice _ _ _ Hok), length_take, length_drop. lia.
Qed.

Lemma stripNewLines_nil s :
  stripNewLines s = [] ↔ Forall (λ c, isNewLine [c] = true) s.
Proof.
  unfold stripNewLines. induction s as [|c s IH]; [done|].
  rewrite filter_cons, Forall_cons. destruct (isNewLine [c]) eqn:E.
  - rewrite decide_False by done. rewrite IH. tauto.
  - rewrite decide_True by done. split; [done|]. by intros [? _].
Qed.

(** X1: every token is a non-empty slice of the input: its text is the
    characters from [start] up to [end], and [end] is within the input. *)
Theorem token_spans inp :
  ∃ toks, tokenizer inp = Some toks ∧
    ∀ t, t ∈ toks →
      start t < end_ t ∧ end_ t ≤ length inp ∧ slice inp t ∧
      length (value t) = end_ t - start t.
Proof.
  destruct (tokenizer_inv inp) as (final&_&Ht&HI&Hin&Hx).
  exists (tokenList final). split; [done|]. intros t Hin'.
  pose proof (final_token_ok _ _ HI Hin') as Hok. rewrite Hin, Hx in Hok.
  destruct (ok_span _ _ _ Hok). split_and!; try done.
  - apply (ok_slice _ _ _ Hok).
  - by apply (value_length inp (length inp)).
Qed.

(** X2: tokens come in the order of the input and their spans do not
    overlap. *)
Theorem tokens_in_order inp :
  ∃ toks, tokenizer inp = Some toks ∧
    ∀ j k t1 t2, j < k → toks !! j = Some t1 → toks !! k = Some t2 →
      end_ t1 ≤ start t2.
Proof.
  destruct (tokenizer_inv inp) as (final&_&Ht&HI&Hin&Hx).
  exists (tokenList final). split; [done|]. apply (inv_order _ HI).
Qed.

(** X3: all the characters of a token have the kind the token was created
    with, so a Whitespace token holds only spaces and a Word or Keyword holds
    no space, sign or line-break character; a Sign token is one character. *)
Theorem token_characters inp :
  ∃ toks, tokenizer inp = Some toks ∧
    ∀ t, t ∈ toks →
      (∀ c, c ∈ value t → charKind c = Some (base (type t))) ∧
      (type t = Sign → length (value t) = 1).
Proof.
  destruct (tokenizer_inv inp) as (final&_&Ht&HI&Hin&Hx).
  exists (tokenList final). split; [done|]. intros t Hin'.
  pose proof (final_token_ok _ _ HI Hin') as Hok. rewrite Hin, Hx in Hok.
  split.
  - intros c Hc. destruct (value_elem _ _ _ _ Hok Hc) as (i&Hcov&Hi).
    by apply (ok_kind _ _ _ Hok i).
  - intros Hs. rewrite (value_length inp (length inp)) by done.
    rewrite (ok_sign _ _ _ Hok Hs). lia.
Qed.

(** X4: the [line] of a token is the number of line breaks of the input
    before the token. *)
Theorem token_line inp :
  ∃ toks, tokenizer inp = Some toks ∧
    ∀ t, t ∈ toks → line t = lineBreaks (take (start t) inp).
Proof.
  destruct (tokenizer_pos inp) as (final&Ht&HI&HP&Hin&Hx).
  exists (tokenList final). split; [done|]. intros t Hin'.
  pose proof (final_token_ok _ _ HI Hin') as Hok. rewrite Hin, Hx in Hok.
  pose proof (pos_line _ HP t Hin') as Hl. rewrite Hin in Hl.
  destruct (ok_span _ _ _ Hok) as [Hs He].
  assert (Hlt : start t < length inp) by lia.
  destruct (lookup_lt_is_Some_2 _ _ Hlt) as [c Hc].
  assert (Hk : isNewLine [c] = false).
  { eapply charKind_Some. apply (ok_kind _ _ _ Hok (start t)); [|done].
    unfold covers. lia. }
  rewrite <- (take_drop (start t) inp) in Hl at 2.
  rewrite (drop_S _ _ _ Hc) in Hl.
  rewrite (lineBreaks_app _ _ _ Hk) in Hl. lia.
Qed.

(** X5: [col] counts tokens, not characters: the first token has [col] 0,
    a token that begins where the previous one ends is on the same line with
    the next [col], and any other token is on a later line with [col] 0. *)
Theorem token_col inp :
  ∃ toks, tokenizer inp = Some toks ∧
    (∀ t, toks !! 0 = Some t → col t = 0) ∧
    ∀ k t1 t2, toks !! k = Some t1 → toks !! (k + 1) = Some t2 →
      next_token_pos t1 t2.
Proof.
  destruct (tokenizer_pos inp) as (final&Ht&HI&HP&Hin&Hx).
  exists (tokenList final). split; [done|]. split.
  - apply (pos_first _ HP).
  - apply (pos_next _ HP).
Qed.

(** X6: the output is empty exactly when the input holds nothing but
    line-break characters. *)
Theorem no_tokens_iff inp :
  tokenizer inp = Some [] ↔ Forall (λ c, isNewLine [c] = true) inp.
Proof.
  destruct (tokenizer_inv inp) as (final&_&Ht&HI&Hin&Hx).
  pose proof (inv_concat _ HI) as Hc. rewrite Hin, Hx, firstn_all in Hc.
  rewrite <- stripNewLines_nil, <- Hc, Ht. split.
  - by intros [= ->].
  - intros Hnil. f_equal. destruct (tokenList final) as [|t l] eqn:E; [done|].
    assert (Hin' : t ∈ tokenList final) by (rewrite E; by left).
    pose proof (final_token_ok _ _ HI Hin') as Hok. rewrite Hin, Hx in Hok.
    pose proof (value_length _ _ _ Hok (Nat.le_refl _)) as Hlen.
    destruct (ok_span _ _ _ Hok). simpl in Hnil.
    apply app_eq_nil in Hnil as [Hv _]. rewrite Hv in Hlen. simpl in Hlen. lia.
Qed.

End TokenizerMore.

(** * Further properties of the parser *)

Module ParserMore.

Import Tokenizer TokenizerSpec TokenizerFacts PositionSpec TokenizerMore.
Import Parser ParserSpec ParserFacts ParserStates.
Import Collector(Fields, mkFields, AliasStatementCollector,
                 StringLiteralCollector).

Lemma parser_returns tokens p :
  parser tokens = Some p → returns (init tokens) p.
Proof.
  unfold parser, run. intros H.
  destruct (run_loop _ _) as [r|] eqn:E; [|done].
  inversion H; subst. exists r. split; [by eexists|done].
Qed.

Lemma parser_total tokens : ∃ p, parser tokens = Some p.
Proof.
  unfold parser, run.
  destruct (run_loop_total (2 * length tokens + 2) (init tokens)) as [r Hr].
  { unfold measure. simpl. lia. }
  rewrite Hr. by eexists.
Qed.

(** X7: the loop of [run] ends for every token sequence, although it moves
    its cursor back when it starts a statement or a string literal; [parser]
    returns a program or throws. *)
Theorem parser_terminates tokens :
  (∃ p, parser tokens = Some (Ok p)) ∨ (∃ e, parser tokens = Some (Throw e)).
Proof.
  destruct (parser_total tokens) as [[p|e] H]; [left|right]; by eexists.
Qed.

Lemma returns_skip_other pre tokens p :
  (∀ t, t ∈ pre → value t ≠ js "alias") →
  returns (init tokens) p → returns (init (pre ++ tokens)) p.
Proof.
  intros Hpre Hr. induction pre as [|t pre IH]; [done|].
  simpl. unfold init. eapply returns_feed.
  - unfold iteration. simpl.
    rewrite bool_decide_eq_false_2 by (apply Hpre; by left). reflexivity.
  - simpl. apply IH. intros t' Ht'. apply Hpre. by right.
Qed.

(** X8: tokens before the first token whose text is [alias] do not change
    the outcome. *)
Theorem leading_tokens_ignored pre tokens :
  (∀ t, t ∈ pre → value t ≠ js "alias") →
  parser (pre ++ tokens) = parser tokens.
Proof.
  intros Hpre. destruct (parser_total tokens) as [p Hp]. rewrite Hp.
  apply returns_parser, returns_skip_other; [done|].
  by apply parser_returns.
Qed.

Lemma leading_tokens_ignored_witness :
  parser ([mkToken Word (js "xyz") 0 3 0 0] ++ alias_foo) = parser alias_foo.
Proof.
  apply leading_tokens_ignored. intros t Ht.
  apply list_elem_of_singleton in Ht as ->. by vm_compute.
Defined.

Lemma iteration_index s s' :
  iteration s = Ok s' → index s' ≤ index s + 1.
Proof.
  unfold iteration. intros Hit.
  repeat case_match; simplify_eq; simpl in *; inv_bind;
    repeat case_match; simplify_eq; simpl in *; inv_bind; simplify_eq;
    simpl; lia.
Qed.

Lemma iteration_ext more s :
  index s < length (tokenList s) →
  iteration (ext more s) = ext more <$> iteration s.
Proof.
  intros Hlt. unfold ext. rewrite iteration_retok.
  - destruct (iteration s) as [s'|] eqn:E; [|done]. simpl.
    pose proof (iteration_decreases _ _ E) as [-> _].
    pose proof (iteration_index _ _ E).
    unfold retok. f_equal. f_equal. lia.
  - by rewrite lookup_app_l.
Qed.

Lemma run_loop_ext_throw more fuel s e :
  run_loop fuel s = Some (Throw e) →
  run_loop fuel (ext more s) = Some (Throw e).
Proof.
  revert s. induction fuel as [|fuel IH]; intros s H; [done|].
  simpl in *. case_bool_decide as Hlt; [|done].
  rewrite bool_decide_eq_true_2 by (rewrite length_app; lia).
  change (iteration _) with (iteration (ext more s)).
  rewrite iteration_ext by done.
  destruct (iteration s) as [s'|e']; simpl; [by apply IH|done].
Qed.

(** X9: an error is final: when [parser] throws on a token sequence, it
    throws the same on every sequence that starts with it. *)
Theorem throw_is_final tokens more e :
  parser tokens = Some (Throw e) → parser (tokens ++ more) = Some (Throw e).
Proof.
  intros H. apply parser_returns in H as (r&[fuel Hr]&Hp).
  destruct r as [|e']; [done|]. inversion Hp; subst e'.
  apply returns_parser. exists (Throw e). split; [|done].
  exists fuel. apply (run_loop_ext_throw more) in Hr. exact Hr.
Qed.

Lemma throw_is_final_witness :
  parser ((alias_foo ++ [mkToken Sign (js "(") 9 10 0 3]) ++ alias_foo) =
  Some (Throw Error).
Proof. apply throw_is_final. vm_compute. reflexivity. Defined.

Lemma WF_init tokens : WF (init tokens).
Proof. split; simpl; [|done]. intros x Hx. by apply elem_of_nil in Hx. Qed.

Lemma is_alias_app h h' x : is_alias h x → is_alias (h ++ h') x.
Proof.
  intros (f&n&H). exists f, n. rewrite lookup_app_l; [done|].
  by eapply lookup_lt_Some.
Qed.

Lemma is_alias_insert h c f n x :
  is_alias h x → is_alias (<[c := AliasStatementCollector f n]> h) x.
Proof.
  intros (f'&n'&H). destruct (decide (c = x)) as [->|Hne].
  - exists f, n. rewrite list_lookup_insert_eq; [done|]. by eapply lookup_lt_Some.
  - exists f', n'. by rewrite list_lookup_insert_ne.
Qed.

Lemma is_alias_insert_other h c o x :
  is_alias h x → ¬ is_alias h c → is_alias (<[c := o]> h) x.
Proof.
  intros (f'&n'&H) Hc. destruct (decide (c = x)) as [->|Hne].
  - exfalso. apply Hc. by exists f', n'.
  - exists f', n'. by rewrite list_lookup_insert_ne.
Qed.

Lemma countWords_snoc tl i c s t :
  countWords (mkFields (tl ++ [t]) i c s) =
  countWords (mkFields tl 0 c s) + (if decide (type t = Word) then 1 else 0).
Proof.
  unfold countWords. simpl. rewrite filter_app, length_app. f_equal.
  rewrite filter_cons, filter_nil. by destruct (decide (type t = Word)).
Qed.

Lemma not_alias_string h c f n :
  h !! c = Some (StringLiteralCollector f n) → ¬ is_alias h c.
Proof. intros H (f'&n'&H'). congruence. Qed.

Lemma words_snoc (tl : list Token) t :
  length (filter (λ t, type t = Word) (tl ++ [t])) =
  length (filter (λ t, type t = Word) tl) +
  (if decide (type t = Word) then 1 else 0).
Proof.
  rewrite filter_app, length_app. f_equal.
  rewrite filter_cons, filter_nil. by destruct (decide (type t = Word)).
Qed.

(** One iteration from a state of the loop: a mismatch, or another state of
    the loop. *)
Lemma iteration_WF s t :
  WF s → tokenList s !! index s = Some t →
  iteration s = Throw Error ∨ ∃ s', iteration s = Ok s' ∧ WF s'.
Proof.
  intros [Hbody Hc] Ht. destruct s as [idx tl B St nd co h]. simpl in *.
  unfold iteration. simpl. rewrite Ht.
  destruct co as [c|].
  - destruct Hc as [-> [(f&n&->&Hobj&Hok)|(a&fa&na&f&n&->&Hne&Ha&Hoka&Hia&Hobj&Hok)]].
    + (* inside an alias statement *)
      destruct f as [ftl i fc fs]. destruct Hok as [Hs Ho Hi H1 H2].
      unfold countWords in *. simpl in *. subst fc fs.
      pose proof (lookup_lt_Some _ _ _ Hobj) as Hlt.
      unfold Collector.next. rewrite Hobj. simpl.
      destruct (decide (type t = Whitespace)) as [Hw|Hw].
      { rewrite (bool_decide_eq_true_2 _ Hw). simpl. rewrite Hobj. simpl.
        right. eexists. split; [reflexivity|]. split; [done|]. simpl.
        split; [done|]. left. eexists _, _. by split_and!. }
      rewrite (bool_decide_eq_false_2 _ Hw). simpl.
      destruct i as [|[|[|[|[|[|[|i]]]]]]]; [..|lia]; simpl;
        unfold Collector.valueIs, Collector.typeIs;
        try (case_bool_decide as Hrule; [|by left]); simpl;
        rewrite ?list_lookup_insert_eq by done; simpl.
      all: try (right; eexists; split; [reflexivity|]; split; simpl;
        [intros x Hx; by apply is_alias_insert, Hbody|];
        split; [done|]; left; eexists _, _; split_and!;
        [done|by apply list_lookup_insert_eq|];
        split; unfold countWords; simpl; try done; try lia;
        rewrite words_snoc; try rewrite (decide_True _ _ Hrule); lia).
      * (* the rule spawns the string collector *)
        rewrite list_lookup_middle by done. simpl.
        right. eexists. split; [reflexivity|]. split; simpl.
        { intros x Hx. by apply is_alias_app, Hbody. }
        split; [done|]. right.
        exists c, (mkFields ftl 5 false true), n, Collector.newFields,
          (mkStringLiteral []).
        split_and!;
          [done|lia|by rewrite lookup_app_l
          |split; unfold countWords; simpl; auto with lia|done
          |by apply list_lookup_middle|split; simpl; auto with lia].
      * (* the last rule matches: the statement is complete *)
        destruct (filter (λ t, type t = Word) ftl) as [|w0 [|w1 ws]] eqn:E;
          [simpl in H2; lia..|].
        unfold Collector.compose. simpl. rewrite filter_app, E. simpl.
        destruct (AliasStatement_body n) as [al pk]. simpl.
        right. eexists. split; [reflexivity|]. split; simpl; [|done].
        intros x Hx. do 2 apply is_alias_insert.
        apply elem_of_app in Hx as [Hx|Hx]; [by apply Hbody|].
        apply list_elem_of_singleton in Hx as ->. by eexists _, _.
    + (* inside the string literal *)
      destruct f as [ftl j fc fs]. destruct Hok as [Hs Ho Hj Hb].
      simpl in *. subst fc fs.
      pose proof (lookup_lt_Some _ _ _ Hobj) as Hlt.
      pose proof (lookup_lt_Some _ _ _ Ha) as Hlta.
      pose proof (not_alias_string _ _ _ _ Hobj) as Hns.
      unfold Collector.next. rewrite Hobj. simpl.
      destruct (decide (type t = Whitespace)) as [Hw|Hw].
      { rewrite (bool_decide_eq_true_2 _ Hw). simpl. rewrite Hobj. simpl.
        right. eexists. split; [reflexivity|]. split; [done|]. simpl.
        split; [done|]. right. eexists _, _, _, _, _. by split_and!. }
      rewrite (bool_decide_eq_false_2 _ Hw). simpl.
      destruct j as [|[|[|j]]]; [..|lia]; simpl;
        unfold Collector.valueIs, Collector.typeIs;
        (case_bool_decide as Hrule; [|by left]); simpl;
        rewrite ?list_lookup_insert_eq by done; simpl.
      1,2: right; eexists; split; [reflexivity|]; split; simpl;
        [intros x Hx; by apply is_alias_insert_other; [apply Hbody|]|];
        split; [done|]; right; eexists _, _, _, _, _; split_and!;
        [done|done|by rewrite list_lookup_insert_ne|done|done
        |by apply list_lookup_insert_eq
        |split; simpl; try done; rewrite ?length_app; simpl; lia].
      (* the closing quote: the literal is complete *)
      destruct ftl as [|t0 [|t1 [|t2 ftl]]]; simpl in Hj; try lia.
      unfold Collector.compose. simpl.
      rewrite list_lookup_insert_ne by done.
      rewrite list_lookup_insert_ne by done. rewrite Ha.
      rewrite list_lookup_insert_eq by (by rewrite length_insert). simpl.
      destruct fa as [atl ai ac asw]. destruct Hoka as [Has Hao Hai Ha1 Ha2].
      unfold countWords in *. simpl in *. subst ai ac asw.
      destruct (AliasStatement_body na) as [al pk]. simpl.
      right. eexists. split; [reflexivity|]. split; simpl.
      * intros x Hx. apply is_alias_insert.
        apply is_alias_insert_other.
        -- apply is_alias_insert_other; [by apply Hbody|done].
        -- intros (f'&n'&H'). by rewrite list_lookup_insert_eq in H'.
      * split; [done|]. left. eexists _, _. split_and!; [done| |].
        -- apply list_lookup_insert_eq. by rewrite !length_insert.
        -- split; unfold countWords; simpl; auto with lia.
  - destruct Hc as [-> ->]. case_bool_decide.
    + right. eexists. split; [reflexivity|]. split; simpl.
      * intros x Hx. by apply is_alias_app, Hbody.
      * split; [done|]. left. eexists _, _. split_and!; try done.
        -- by apply list_lookup_middle.
        -- split; simpl; try done; lia.
    + right. eexists. split; [reflexivity|]. by split.
Qed.

Lemma run_loop_WF fuel s r :
  WF s → run_loop fuel s = Some r →
  match r with
  | Ok s' => WF s' ∧ length (tokenList s') ≤ index s'
  | Throw e => e = Error
  end.
Proof.
  revert s. induction fuel as [|fuel IH]; intros s Hwf H; [done|].
  simpl in H. case_bool_decide as Hlt.
  - destruct (lookup_lt_is_Some_2 _ _ Hlt) as [t Ht].
    destruct (iteration_WF s t Hwf Ht) as [E|(s'&E&Hwf')]; rewrite E in H.
    + by inversion H.
    + by apply (IH s').
  - inversion H; subst. split; [done|lia].
Qed.

(** X10: the only error [parser] raises is the mismatch [Error]: no rule is
    looked up past the end of a rule list and [compose] always finds the
    tokens it reads. *)
Theorem only_mismatch_errors tokens e :
  parser tokens = Some (Throw e) → e = Error.
Proof.
  unfold parser, run. intros H.
  destruct (run_loop _ _) as [[s|e']|] eqn:E; try done.
  inversion H; subst e'.
  apply (run_loop_WF _ _ _ (WF_init tokens) E).
Qed.

Lemma only_mismatch_errors_witness :
  ∃ e, parser (alias_foo ++ [mkToken Sign (js "(") 9 10 0 3]) =
       Some (Throw e) ∧ e = Error.
Proof.
  eexists. split; [vm_compute; reflexivity|].
  eapply (only_mismatch_errors (alias_foo ++ [mkToken Sign (js "(") 9 10 0 3])).
  vm_compute. reflexivity.
Defined.

(** X11: every node of the program [parser] returns is an alias statement: a
    string literal is never a statement of its own. *)
Theorem program_of_alias_statements tokens p :
  parser tokens = Some (Ok p) →
  ∀ n, n ∈ body p → ∃ a, n = AliasStatementNode a.
Proof.
  unfold parser, run. intros H.
  destruct (run_loop _ _) as [[s|e']|] eqn:E; try done.
  inversion H; subst p.
  destruct (run_loop_WF _ _ _ (WF_init tokens) E) as [[Hbody _] _].
  intros n Hn. unfold ast in Hn. simpl in Hn.
  apply list_elem_of_omap in Hn as (x&Hx&Hn).
  destruct (Hbody x Hx) as (f&a&Hh). rewrite Hh in Hn. simpl in Hn.
  inversion Hn. by eexists.
Qed.

Lemma program_of_alias_statements_witness :
  Forall (λ n, ∃ a, n = AliasStatementNode a) (body example_program).
Proof.
  apply Forall_forall.
  apply (program_of_alias_statements
           [mkToken Keyword (js "alias") 0 5 0 0; mkToken Word (js "foo") 6 9 0 2;
            mkToken Sign (js "#") 10 11 0 4; mkToken Word (js "bar") 11 14 0 5;
            mkToken Sign (js "(") 14 15 0 6; mkToken Sign quote 15 16 0 7;
            mkToken Word (js "baz") 16 19 0 8; mkToken Sign quote 19 20 0 9;
            mkToken Sign (js ")") 20 21 0 10]).
  vm_compute. reflexivity.
Defined.

Lemma next_reloc (H0 h : Collector.Heap) a arg :
  Collector.next (H0 ++ h) (length H0 + a)
    (sum_map id (Nat.add (length H0)) arg) =
  fmap (M:=Result)
    (λ hr : Collector.Heap * option Collector.addr,
       (H0 ++ hr.1, Nat.add (length H0) <$> hr.2))
    (Collector.next h a arg).
Proof.
  unfold Collector.next. rewrite lookup_app_r by lia.
  replace (length H0 + a - length H0) with a by lia.
  destruct (h !! a) as [self|]; [|done].
  destruct arg as [t|c]; simpl.
  - destruct (_ && _); [done|].
    destruct (Collector.ruleList self !! _) as [rule|]; [|done].
    destruct (rule t) as [[|]|m]; simpl; try done.
    + by rewrite insert_app_r.
    + by rewrite length_app, <- app_assoc.
  - rewrite lookup_app_r by lia.
    replace (length H0 + c - length H0) with c by lia.
    destruct (h !! c) as [child|]; [|done]. simpl.
    by rewrite insert_app_r.
Qed.

Lemma pop_fmap (f : nat → nat) l : pop (f <$> l) = f <$> pop l.
Proof.
  unfold pop. induction l as [|x l IH]; [done|].
  destruct l as [|y l]; [done|].
  change (f x :: removelast (f <$> y :: l) = f x :: (f <$> removelast (y :: l))).
  by f_equal.
Qed.

Lemma iteration_reloc H0 B0 s :
  iteration (reloc H0 B0 s) = reloc H0 B0 <$> iteration s.
Proof.
  unfold iteration, reloc. simpl.
  destruct (tokenList s !! index s) as [t|]; [|done].
  destruct (node s) as [n0|], (collector s) as [c0|]; simpl;
    try (case_bool_decide; simpl; rewrite ?length_app, ?fmap_app,
           <- ?app_assoc; done).
  pose proof (next_reloc H0 (heap s) c0 (inl t)) as Hn. simpl in Hn.
  rewrite Hn. clear Hn.
  destruct (Collector.next (heap s) c0 (inl t)) as [[h1 [nc|]]|]; simpl;
    [| |done].
  - rewrite lookup_app_r by lia.
    replace (length H0 + nc - length H0) with nc by lia.
    destruct (h1 !! nc) as [obj|]; [|done].
    destruct (Collector.complete _).
    + destruct (Collector.compose obj) as [obj1|]; [|done]. simpl.
      rewrite insert_app_r.
      change [length H0 + nc] with (Nat.add (length H0) <$> [nc]).
      rewrite <- fmap_app, pop_fmap. unfold at_last. rewrite fmap_last.
      destruct (last (pop (collectorStack s ++ [nc]))) as [lst|]; simpl.
      * pose proof (next_reloc H0 (<[nc:=obj1]> h1) lst (inr nc)) as Hn.
        simpl in Hn. rewrite Hn.
        by destruct (Collector.next _ lst _) as [[h3 ?]|].
      * by rewrite fmap_app, app_assoc.
    + simpl. by rewrite fmap_app.
  - rewrite lookup_app_r by lia.
    replace (length H0 + c0 - length H0) with c0 by lia.
    destruct (h1 !! c0) as [obj|]; [|done].
    destruct (Collector.complete _).
    + destruct (Collector.compose obj) as [obj1|]; [|done]. simpl.
      rewrite insert_app_r.
      rewrite pop_fmap. unfold at_last. rewrite fmap_last.
      destruct (last (pop (collectorStack s))) as [lst|]; simpl.
      * pose proof (next_reloc H0 (<[c0:=obj1]> h1) lst (inr c0)) as Hn.
        simpl in Hn. rewrite Hn.
        by destruct (Collector.next _ lst _) as [[h3 ?]|].
      * by rewrite fmap_app, app_assoc.
    + done.
Qed.

Lemma run_loop_reloc H0 B0 fuel s :
  run_loop fuel (reloc H0 B0 s) =
  fmap (M:=Result) (reloc H0 B0) <$> run_loop fuel s.
Proof.
  revert s. induction fuel as [|fuel IH]; intros s; [done|].
  cbn [run_loop]. rewrite iteration_reloc.
  change (index (reloc H0 B0 s)) with (index s).
  change (tokenList (reloc H0 B0 s)) with (tokenList s).
  destruct (bool_decide (index s < length (tokenList s))); [|reflexivity].
  destruct (iteration s) as [s'|]; simpl; [apply IH|reflexivity].
Qed.

Lemma ast_reloc H0 B0 s :
  (∀ x, x ∈ B0 → x < length H0) →
  ast (reloc H0 B0 s) =
  mkProgram (omap (λ a, Collector.node <$> H0 !! a) B0 ++ body (ast s)).
Proof.
  intros HB. unfold ast, reloc. simpl. f_equal.
  rewrite omap_app, (ast_app B0 H0 (heap s) HB). f_equal.
  apply list_omap_ext. apply Forall2_fmap_l, Forall_Forall2_diag.
  rewrite Forall_forall. intros a _. simpl.
  rewrite lookup_app_r by lia. do 2 f_equal. lia.
Qed.

Lemma run_loop_final fuel s s1 :
  run_loop fuel s = Some (Ok s1) → index s ≤ length (tokenList s) →
  tokenList s1 = tokenList s ∧ index s1 = length (tokenList s).
Proof.
  revert s. induction fuel as [|fuel IH]; intros s H Hle; [done|].
  simpl in H. case_bool_decide as Hlt.
  - destruct (iteration s) as [s'|] eqn:E; [|done].
    pose proof (iteration_decreases _ _ E) as [Htl _].
    pose proof (iteration_index _ _ E).
    destruct (IH s' H) as [? ?]; [rewrite Htl; lia|].
    split; congruence.
  - inversion H; subst. split; [done|lia].
Qed.

(** The run on longer input passes through the end state of the run on the
    shorter one. *)
Lemma run_loop_ext_ok more fuel s s1 r :
  run_loop fuel s = Some (Ok s1) →
  reaches (ext more s1) r → reaches (ext more s) r.
Proof.
  revert s. induction fuel as [|fuel IH]; intros s H Hr; [done|].
  simpl in H. case_bool_decide as Hlt.
  - destruct (iteration s) as [s'|] eqn:E; [|done].
    eapply reaches_step; [| |by apply (IH s')].
    + simpl. rewrite length_app. lia.
    + by rewrite iteration_ext, E.
  - by inversion H; subst.
Qed.

(** X12: statements compose.  When the run on [toks1] ends between
    statements, the program for [toks1 ++ toks2] is the program for [toks1]
    followed by the program for [toks2], and it fails when [toks2] fails. *)
Theorem parse_sequence toks1 toks2 s1 :
  run toks1 = Some (Ok s1) → collector s1 = None →
  parser (toks1 ++ toks2) =
  fmap (M:=Result) (λ p2, mkProgram (body (ast s1) ++ body p2)) <$>
    parser toks2.
Proof.
  intros Hrun Hidle. unfold run in Hrun.
  destruct (run_loop_WF _ _ _ (WF_init toks1) Hrun) as [[Hbody Hc] _].
  rewrite Hidle in Hc. destruct Hc as [Hnode Hstack].
  destruct (run_loop_final _ _ _ Hrun) as [Htl Hidx]; [simpl; lia|].
  simpl in Htl, Hidx.
  destruct (parser_total toks2) as [p2 Hp2]. rewrite Hp2. simpl.
  apply parser_returns in Hp2 as (r2&[fuel2 Hr2]&<-).
  apply returns_parser.
  exists (shift toks1 <$> (reloc (heap s1) (ast_body s1) <$> r2)). split.
  - apply (run_loop_ext_ok toks2 _ _ _ _ Hrun).
    exists fuel2.
    assert (E : ext toks2 s1 =
                shift toks1 (reloc (heap s1) (ast_body s1) (init toks2))).
    { destruct s1 as [i tl B St nd co h]. simpl in *. subst.
      unfold ext, retok, shift, reloc. simpl.
      by rewrite !app_nil_r, Nat.add_0_r. }
    by rewrite E, run_loop_shift, run_loop_reloc, Hr2.
  - destruct r2 as [s2|e]; [|done]. simpl. f_equal.
    change (ast (shift toks1 (reloc (heap s1) (ast_body s1) s2)))
      with (ast (reloc (heap s1) (ast_body s1) s2)).
    rewrite ast_reloc; [done|].
    intros x Hx. destruct (Hbody x Hx) as (f&n&Hh). by eapply lookup_lt_Some.
Qed.

Lemma parse_sequence_witness :
  parser (example_tokens ++ example_tokens) =
  Some (Ok (mkProgram (body example_program ++ body example_program))).
Proof.
  erewrite parse_sequence; [|vm_compute; reflexivity|reflexivity].
  vm_compute. reflexivity.
Defined.

(** X13: the names are the first two buffered [Word] tokens: when the token
    [alias] itself is a [Word] (the tokenizer leaves it so before a line
    break), the alias literal is [alias] and the packed statement takes the
    name that follows. *)
Theorem unpromoted_alias_shifts_names
    kw w1 hash w2 lp q1 w3 q2 rp ws0 ws1 ws2 ws3 ws4 ws5 ws6 ws7 ws8 :
  type kw = Word → value kw = js "alias" →
  type w1 = Word → is_sign (js "#") hash → type w2 = Word →
  is_sign (js "(") lp → is_sign quote q1 → type w3 = Word →
  is_sign quote q2 → is_sign (js ")") rp →
  Forall is_ws (ws0 ++ ws1 ++ ws2 ++ ws3 ++ ws4 ++ ws5 ++ ws6 ++ ws7 ++ ws8) →
  parser (kw :: ws0 ++ w1 :: ws1 ++ hash :: ws2 ++ w2 :: ws3 ++ lp :: ws4 ++
          q1 :: ws5 ++ w3 :: ws6 ++ q2 :: ws7 ++ rp :: ws8) =
  Some (Ok (mkProgram
    [AliasStatementNode
       (mkAliasStatement
          (mkAliasLiteral (js "alias"),
           mkPackedStatement (value w1) (mkStringLiteral (value w3))))])).
Proof.
  intros Hk1 Hk2 Hw1 [Hh1 Hh2] Hw2 [Hl1 Hl2] [Hq1 Hq1'] Hw3 [Hq2 Hq2']
    [Hr1 Hr2] Hws.
  repeat (apply Forall_app in Hws as [? Hws]).
  destruct kw, w1, hash, w2, lp, q1, w3, q2, rp. simpl in *. subst.
  apply returns_parser. unfold init.
  feed. feed. skip_ws. feed. skip_ws. feed. skip_ws. feed. skip_ws.
  feed. skip_ws. feed. feed. skip_ws. feed. skip_ws. feed. skip_ws. feed.
  match goal with
  | |- returns (mkState 0 ?ws ?B ?St None None ?H) _ =>
      pose proof (returns_top_level_ws ws B St H) as HR
  end.
  apply HR; [done|]. intros a Ha.
  apply list_elem_of_singleton in Ha as ->. simpl. lia.
Qed.

Lemma unpromoted_alias_shifts_names_witness :
  parse_source alias_on_its_own_line =
  Some (Ok (mkProgram
    [AliasStatementNode
       (mkAliasStatement
          (mkAliasLiteral (js "alias"),
           mkPackedStatement (js "foo") (mkStringLiteral (js "baz"))))])).
Proof.
  assert (E : tokenizer alias_on_its_own_line =
    Some (mkToken Word (js "alias") 0 5 0 0 :: [] ++
          mkToken Word (js "foo") 6 9 1 0 ::
          [mkToken Whitespace (js " ") 9 10 1 1] ++
          mkToken Sign (js "#") 10 11 1 2 :: [] ++
          mkToken Word (js "bar") 11 14 1 3 :: [] ++
          mkToken Sign (js "(") 14 15 1 4 :: [] ++
          mkToken Sign quote 15 16 1 5 :: [] ++
          mkToken Word (js "baz") 16 19 1 6 :: [] ++
          mkToken Sign quote 19 20 1 7 :: [] ++
          mkToken Sign (js ")") 20 21 1 8 :: []))
    by (vm_compute; reflexivity).
  unfold parse_source. rewrite E. simpl.
  apply (unpromoted_alias_shifts_names
    (mkToken Word (js "alias") 0 5 0 0) (mkToken Word (js "foo") 6 9 1 0)
    (mkToken Sign (js "#") 10 11 1 2) (mkToken Word (js "bar") 11 14 1 3)
    (mkToken Sign (js "(") 14 15 1 4) (mkToken Sign quote 15 16 1 5)
    (mkToken Word (js "baz") 16 19 1 6) (mkToken Sign quote 19 20 1 7)
    (mkToken Sign (js ")") 20 21 1 8)
    [] [mkToken Whitespace (js " ") 9 10 1 1] [] [] [] [] [] [] []);
    try reflexivity; try (split; reflexivity).
  repeat constructor.
Defined.

Lemma reaches_det s r1 r2 : reaches s r1 → reaches s r2 → r1 = r2.
Proof.
  intros [f1 H1] [f2 H2].
  apply (run_loop_more _ (f1 + f2)) in H1; [|lia].
  apply (run_loop_more _ (f1 + f2)) in H2; [|lia]. congruence.
Qed.

Lemma returns_det s p1 p2 : returns s p1 → returns s p2 → p1 = p2.
Proof.
  intros (r1&H1&<-) (r2&H2&<-). by rewrite (reaches_det _ _ _ H1 H2).
Qed.

Lemma returns_total s : ∃ p, returns s p.
Proof.
  destruct (run_loop_total (S (measure s)) s) as [r Hr]; [lia|].
  exists (ast <$> r), r. split; [by eexists|done].
Qed.

Lemma returns_feed_inv t rest B St N C H p :
  returns (mkState 0 (t :: rest) B St N C H) p →
  match iteration (mkState 0 [t] B St N C H) with
  | Ok s' =>
      returns (retok 0 match index s' with 0 => t :: rest | S _ => rest end s') p
  | Throw e => p = Throw e
  end.
Proof.
  intros Hp. destruct (iteration (mkState 0 [t] B St N C H)) as [s'|e] eqn:E.
  - destruct (returns_total
      (retok 0 match index s' with 0 => t :: rest | S _ => rest end s'))
      as [p' Hp'].
    assert (Hfull : returns (mkState 0 (t :: rest) B St N C H) p').
    { eapply returns_feed; [exact E|exact Hp']. }
    by rewrite (returns_det _ _ _ Hp Hfull).
  - assert (Hfull : returns (mkState 0 (t :: rest) B St N C H) (Throw e)).
    { eapply returns_feed; [exact E|done]. }
    by rewrite (returns_det _ _ _ Hp Hfull).
Qed.

Lemma WF_retok idx tl s : WF s → WF (retok idx tl s).
Proof. by intros H. Qed.

(** A whitespace token whose text is not [alias] is passed over. *)
Lemma whitespace_step s t :
  WF s → tokenList s !! index s = Some t →
  type t = Whitespace → value t ≠ js "alias" →
  iteration s = Ok (retok (index s + 1) (tokenList s) s).
Proof.
  intros [_ Hc] Ht Hw Hv. destruct s as [idx tl B St nd co h]. simpl in *.
  unfold iteration, retok. simpl. rewrite Ht.
  destruct co as [c|].
  - destruct Hc as [-> [(f&n&->&Hobj&Hok)|(a&fa&na&f&n&->&Hne&Ha&Hoka&Hia&Hobj&Hok)]];
      unfold Collector.next; rewrite Hobj; simpl;
      destruct Hok as [-> Ho]; rewrite (bool_decide_eq_true_2 _ Hw); simpl;
      by rewrite Hobj; simpl; rewrite Ho.
  - destruct Hc as [-> ->]. by rewrite (bool_decide_eq_false_2 _ Hv).
Qed.

Lemma measure_mk i tl B St N C H :
  measure (mkState i tl B St N C H) =
  2 * (length tl - i) + (if fresh (mkState 0 [] B St N C H) then 0 else 1).
Proof. reflexivity. Qed.

Lemma whitespace_core n :
  ∀ toks B St N C H p,
    measure (mkState 0 toks B St N C H) ≤ n →
    WF (mkState 0 toks B St N C H) →
    Forall (λ t, type t = Whitespace → value t ≠ js "alias") toks →
    returns (mkState 0 (filter (λ t, type t ≠ Whitespace) toks) B St N C H) p →
    returns (mkState 0 toks B St N C H) p.
Proof.
  induction n as [|n IH]; intros toks B St N C H p Hm Hwf Hall Hp.
  { rewrite measure_mk in Hm. destruct toks; [done|simpl in Hm; lia]. }
  destruct toks as [|t rest]; [done|].
  apply Forall_cons in Hall as [Ht Hall].
  destruct (decide (type t = Whitespace)) as [Hw|Hw].
  - rewrite filter_cons_False in Hp by (by intros ?).
    eapply returns_feed.
    + apply (whitespace_step (mkState 0 [t] B St N C H) t); auto.
    + unfold retok. simpl. apply IH; try done.
      rewrite measure_mk in *. simpl in *. lia.
  - rewrite filter_cons_True in Hp by done.
    apply returns_feed_inv in Hp.
    pose proof (iteration_retok (mkState 0 [t] B St N C H) 0 (t :: rest) eq_refl)
      as Hfull. unfold retok at 1 in Hfull. simpl in Hfull.
    destruct (iteration (mkState 0 [t] B St N C H)) as [s'|e] eqn:E.
    + simpl in Hfull.
      pose proof (iteration_decreases _ _ Hfull) as [_ Hdec].
      destruct (iteration_WF _ t Hwf eq_refl) as [E'|(s''&E'&Hwf')];
        [congruence|].
      rewrite Hfull in E'. inversion E'; subst s''. clear E'.
      pose proof (iteration_index _ _ E) as Hi.
      eapply returns_feed; [exact E|].
      destruct s' as [i' tl' B' St' N' C' H']. unfold retok in *.
      cbn [index tokenList ast_body collectorStack node collector heap] in *.
      rewrite !measure_mk in *.
      destruct i' as [|i'].
      * apply IH; try done.
        -- rewrite measure_mk. simpl in *. lia.
        -- by constructor.
        -- by rewrite filter_cons_True by done.
      * apply IH; try done.
        rewrite measure_mk. simpl in *. lia.
    + subst p. eapply returns_feed; [exact E|done].
Qed.

Lemma whitespace_filter tokens :
  Forall (λ t, type t = Whitespace → value t ≠ js "alias") tokens →
  parser (filter (λ t, type t ≠ Whitespace) tokens) = parser tokens.
Proof.
  intros Hall.
  destruct (parser_total (filter (λ t, type t ≠ Whitespace) tokens))
    as [p Hp].
  rewrite Hp. symmetry. apply returns_parser.
  apply (whitespace_core _ _ _ _ _ _ _ _ (Nat.le_refl _) (WF_init tokens) Hall).
  by apply parser_returns.
Qed.

(** X15: whitespace tokens do not influence the parse: dropping them from
    the token sequence gives the same outcome (for whitespace tokens whose
    text is not [alias], as are all those of the tokenizer). *)
Theorem whitespace_is_irrelevant tokens :
  Forall (λ t, type t = Whitespace → value t ≠ js "alias") tokens →
  parser (filter (λ t, type t ≠ Whitespace) tokens) = parser tokens.
Proof. apply whitespace_filter. Qed.

Lemma whitespace_is_irrelevant_witness :
  parser (filter (λ t, type t ≠ Whitespace) alias_foo) = parser alias_foo.
Proof.
  apply whitespace_is_irrelevant. unfold alias_foo.
  repeat (apply Forall_cons; split; [by vm_compute|]). apply Forall_nil_2.
Defined.

Lemma slice_occurs inp idx t :
  token_ok inp idx t → occurs (value t) inp.
Proof.
  intros Hok. exists (take (start t) inp),
    (drop (end_ t - start t) (drop (start t) inp)).
  rewrite (ok_slice _ _ _ Hok), take_drop. by rewrite take_drop.
Qed.

Lemma whitespace_not_alias inp idx t :
  token_ok inp idx t → type t = Whitespace → value t ≠ js "alias".
Proof.
  intros Hok Hw Hv.
  assert (Hin : 97%N ∈ value t) by (rewrite Hv; by left).
  destruct (value_elem _ _ _ _ Hok Hin) as (i&Hcov&Hi).
  pose proof (ok_kind _ _ _ Hok _ _ Hcov Hi) as Hk.
  rewrite Hw in Hk. by vm_compute in Hk.
Qed.

(** X14: a source text in which the word [alias] does not occur parses to
    the empty program. *)
Theorem source_without_alias inp :
  ¬ occurs (js "alias") inp →
  parse_source inp = Some (Ok (mkProgram [])).
Proof.
  intros Hno. destruct (tokenizer_inv inp) as (final&_&Ht&HI&Hin&Hx).
  unfold parse_source. rewrite Ht. simpl.
  rewrite <- (app_nil_r (Tokenizer.tokenList final)).
  apply returns_parser, returns_skip_other.
  - intros t Hin' Hv. apply Hno. rewrite <- Hv.
    pose proof (final_token_ok _ _ HI Hin') as Hok. rewrite Hin in Hok.
    by apply (slice_occurs _ _ _ Hok).
  - by apply returns_end.
Qed.

Lemma source_without_alias_witness :
  parse_source (js "if x") = Some (Ok (mkProgram [])).
Proof.
  apply source_without_alias. intros (pre&post&E).
  assert (Hlen : length (js "if x") = length (pre ++ js "alias" ++ post))
    by (by rewrite <- E).
  rewrite !length_app in Hlen. simpl in Hlen. lia.
Defined.

(** X16: for the tokens of any source text, dropping the whitespace tokens
    does not change what [parser] returns. *)
Theorem source_whitespace_is_irrelevant inp :
  ∃ toks, tokenizer inp = Some toks ∧
    parser (filter (λ t, type t ≠ Whitespace) toks) = parser toks.
Proof.
  destruct (tokenizer_inv inp) as (final&_&Ht&HI&Hin&Hx).
  exists (Tokenizer.tokenList final). split; [done|].
  apply whitespace_filter. rewrite Forall_forall. intros t Hin'.
  apply (whitespace_not_alias (Tokenizer.input final) (Tokenizer.index final)).
  by apply final_token_ok.
Qed.

Lemma rule_erase c i rule t :
  Collector.ruleList c !! i = Some rule → rule (erase t) = rule t.
Proof.
  intros Hr. destruct c; simpl in Hr;
    do 8 (try (destruct i as [|i]; simpl in Hr; [by inversion Hr|]));
    done.
Qed.

Lemma filter_erase (l : list Token) :
  filter (λ t, type t = Word) (erase <$> l) =
  erase <$> filter (λ t, type t = Word) l.
Proof.
  induction l as [|t l IH]; [done|]. rewrite fmap_cons, !filter_cons.
  change (type (erase t)) with (type t).
  destruct (decide (type t = Word)); [rewrite fmap_cons|]; by rewrite IH.
Qed.

Lemma compose_erase c :
  Collector.compose (eraseCollector c) =
  eraseCollector <$> Collector.compose c.
Proof.
  destruct c as [f n|f n]; simpl.
  - rewrite filter_erase. destruct (AliasStatement_body n) as [al pk].
    rewrite !list_lookup_fmap.
    destruct (filter _ _ !! 0) as [w0|]; [|done]. simpl.
    by destruct (filter _ _ !! 1) as [w1|].
  - rewrite list_lookup_fmap. by destruct (Collector.tokenList f !! 1).
Qed.

Lemma pushCollector_erase self child :
  Collector.pushCollector (eraseCollector self) (eraseCollector child) =
  eraseCollector (Collector.pushCollector self child).
Proof.
  destruct self as [f n|f n], child as [f' n'|f' n']; simpl; try done.
  by destruct (AliasStatement_body n).
Qed.

Lemma next_erase (h : Collector.Heap) a arg :
  Collector.next (eraseCollector <$> h) a (sum_map erase id arg) =
  fmap (M:=Result)
    (λ hr : Collector.Heap * option Collector.addr,
       (eraseCollector <$> hr.1, hr.2))
    (Collector.next h a arg).
Proof.
  unfold Collector.next. rewrite list_lookup_fmap.
  destruct (h !! a) as [self|] eqn:Hs; [|done]. simpl.
  destruct arg as [t|c]; simpl.
  - assert (Hf : Collector.fields (eraseCollector self) =
                 eraseFields (Collector.fields self)) by (by destruct self).
    assert (Hr : Collector.ruleList (eraseCollector self) =
                 Collector.ruleList self) by (by destruct self).
    rewrite Hf, Hr. simpl.
    destruct (_ && _); [done|].
    destruct (Collector.ruleList self !! _) as [rule|] eqn:Hrule; [|done].
    rewrite (rule_erase _ _ _ _ Hrule).
    destruct (rule t) as [[|]|m] eqn:Hrt; simpl; try done.
    + rewrite list_fmap_insert. do 3 f_equal. destruct self; simpl;
        unfold eraseCollector, eraseFields; simpl; by rewrite fmap_app.
    + destruct (spawn_rule _ _ _ _ _ Hrule Hrt) as [_ ->].
      by rewrite fmap_app, length_fmap.
  - rewrite list_lookup_fmap.
    destruct (h !! c) as [child|]; [|done]. simpl.
    rewrite list_fmap_insert, pushCollector_erase. do 3 f_equal.
    by destruct (Collector.pushCollector self child).
Qed.

Lemma iteration_erase s :
  iteration (eraseState s) = eraseState <$> iteration s.
Proof.
  unfold iteration, eraseState. simpl. rewrite list_lookup_fmap.
  destruct (tokenList s !! index s) as [t|]; [|done]. simpl.
  destruct (node s) as [n0|], (collector s) as [c0|]; simpl;
    try (case_bool_decide; simpl; by rewrite ?fmap_app, ?length_fmap).
  pose proof (next_erase (heap s) c0 (inl t)) as Hn. simpl in Hn.
  rewrite Hn. clear Hn.
  destruct (Collector.next (heap s) c0 (inl t)) as [[h1 nc]|]; simpl; [|done].
  assert (Hcomplete : ∀ c, Collector.complete (Collector.fields (eraseCollector c))
                           = Collector.complete (Collector.fields c))
    by (by intros []).
  destruct nc as [nc|]; simpl; rewrite list_lookup_fmap.
  - destruct (h1 !! nc) as [obj|]; [|done]. simpl. rewrite Hcomplete.
    destruct (Collector.complete _); [|done].
    rewrite compose_erase.
    destruct (Collector.compose obj) as [obj1|]; [|done]. simpl.
    rewrite <- list_fmap_insert.
    destruct (at_last _) as [lst|]; [|done].
    pose proof (next_erase (<[nc:=obj1]> h1) lst (inr nc)) as Hn.
    simpl in Hn. rewrite Hn. clear Hn.
    destruct (Collector.next _ lst _) as [[h3 ?]|]; reflexivity.
  - destruct (h1 !! c0) as [obj|]; [|done]. simpl. rewrite Hcomplete.
    destruct (Collector.complete _); [|done].
    rewrite compose_erase.
    destruct (Collector.compose obj) as [obj1|]; [|done]. simpl.
    rewrite <- list_fmap_insert.
    destruct (at_last _) as [lst|]; [|done].
    pose proof (next_erase (<[c0:=obj1]> h1) lst (inr c0)) as Hn.
    simpl in Hn. rewrite Hn. clear Hn.
    destruct (Collector.next _ lst _) as [[h3 ?]|]; reflexivity.
Qed.

Lemma run_loop_erase fuel s :
  run_loop fuel (eraseState s) =
  fmap (M:=Result) eraseState <$> run_loop fuel s.
Proof.
  revert s. induction fuel as [|fuel IH]; intros s; [done|].
  cbn [run_loop]. rewrite iteration_erase.
  assert (Hg : bool_decide (index (eraseState s) < length (tokenList (eraseState s)))
               = bool_decide (index s < length (tokenList s))).
  { apply bool_decide_ext. simpl. by rewrite length_fmap. }
  rewrite Hg.
  destruct (bool_decide (index s < length (tokenList s))); [|reflexivity].
  destruct (iteration s) as [s'|]; simpl; [apply IH|reflexivity].
Qed.

Lemma ast_erase s : ast (eraseState s) = ast s.
Proof.
  unfold ast, eraseState. simpl. f_equal. apply list_omap_ext.
  apply Forall_Forall2_diag, Forall_forall. intros a _.
  rewrite list_lookup_fmap. destruct (heap s !! a) as [c|]; [|done].
  by destruct c.
Qed.

(** X17: the parse depends only on the kinds and the texts of the tokens,
    not on their offsets, lines or columns. *)
Theorem positions_are_irrelevant tokens :
  parser (erase <$> tokens) = parser tokens.
Proof.
  unfold parser, run. rewrite length_fmap.
  change (init (erase <$> tokens)) with (eraseState (init tokens)).
  rewrite run_loop_erase.
  destruct (run_loop _ (init tokens)) as [[s|e]|]; simpl; try done.
  by rewrite ast_erase.
Qed.

(** ** The end of the input inside a statement *)

Lemma finished_app h h' x : finished h x → finished (h ++ h') x.
Proof.
  intros (obj&H&Hc). exists obj. split; [|done].
  rewrite lookup_app_l; [done|]. by eapply lookup_lt_Some.
Qed.

Lemma finished_insert h c obj x :
  finished h x →
  (h !! c = Some obj ∨ Collector.complete (Collector.fields obj) = true) →
  finished (<[c := obj]> h) x.
Proof.
  intros (o&H&Hc) Hobj. destruct (decide (c = x)) as [->|Hne].
  - destruct Hobj as [Hobj|Hobj].
    + exists o. rewrite list_insert_id; [done|congruence].
    + exists obj. split; [|done].
      apply list_lookup_insert_eq. by eapply lookup_lt_Some.
  - exists o. by rewrite list_lookup_insert_ne.
Qed.

Lemma fields_withFields f c :
  Collector.fields (Collector.withFields f c) = f.
Proof. by destruct c. Qed.

Lemma fields_pushCollector this c :
  Collector.fields (Collector.pushCollector this c) = Collector.fields this.
Proof.
  destruct this as [f n|f n]; [|done]. destruct c; [done|]. simpl.
  by destruct (AliasStatement_body n).
Qed.

Lemma fields_compose obj obj1 :
  Collector.compose obj = Ok obj1 →
  Collector.fields obj1 = Collector.fields obj.
Proof.
  unfold Collector.compose. intros H. destruct obj as [f n|f n].
  - destruct (AliasStatement_body n). repeat case_match; by simplify_eq.
  - repeat case_match; by simplify_eq.
Qed.

(** A collector that has matched its last rule stays so, whatever is fed to
    any collector. *)
Lemma next_finished h this arg h' r x :
  Collector.next h this arg = Ok (h', r) → finished h x → finished h' x.
Proof.
  unfold Collector.next. intros H Hx.
  destruct (h !! this) as [self|] eqn:Hself; [|done].
  destruct arg as [token|c].
  - destruct (Collector.skipWhitespace (Collector.fields self) &&
              bool_decide (type token = Whitespace)).
    { by inversion H; subst. }
    destruct (Collector.ruleList self !! _) as [rule|]; [|done].
    destruct (rule token) as [[|]|m]; inversion H; subst.
    + destruct (decide (this = x)) as [->|Hne].
      * destruct Hx as (o&Ho&Hc). rewrite Ho in Hself. inversion Hself; subst o.
        eexists. split.
        { apply list_lookup_insert_eq. by eapply lookup_lt_Some. }
        rewrite fields_withFields. simpl. rewrite Hc. by case_bool_decide.
      * destruct Hx as (o&Ho&Hc). exists o. by rewrite list_lookup_insert_ne.
    + by apply finished_app.
  - destruct (h !! c) as [child|]; [|done]. inversion H; subst.
    destruct (decide (this = x)) as [->|Hne].
    + destruct Hx as (o&Ho&Hc). rewrite Ho in Hself. inversion Hself; subst o.
      eexists. split.
      { apply list_lookup_insert_eq. by eapply lookup_lt_Some. }
      rewrite fields_withFields. simpl. by rewrite fields_pushCollector.
    + destruct Hx as (o&Ho&Hc). exists o. by rewrite list_lookup_insert_ne.
Qed.

(** Everything [this.ast.body] refers to has matched its last rule. *)
Lemma iteration_finished s s' :
  iteration s = Ok s' → node s = collector s →
  (∀ x, x ∈ ast_body s → finished (heap s) x) →
  ∀ x, x ∈ ast_body s' → finished (heap s') x.
Proof.
  unfold iteration. intros H Hnc Hb.
  destruct (tokenList s !! index s) as [token|]; [|done].
  destruct (node s) as [n0|], (collector s) as [c0|].
  2-4: case_bool_decide; inversion H; subst; simpl; try done;
       intros x Hx; by apply finished_app, Hb.
  destruct (Collector.next (heap s) c0 (inl token)) as [[h1 nc]|] eqn:Hnext;
    [|done].
  simpl in H.
  assert (H1 : ∀ x, x ∈ ast_body s → finished h1 x).
  { intros x Hx. eapply next_finished; [exact Hnext|by apply Hb]. }
  assert (Hgen : ∀ c1 st1 n1 i1,
    match h1 !! c1 with
    | None => Throw TypeError
    | Some obj =>
        if Collector.complete (Collector.fields obj) then
          obj1 ← Collector.compose obj;
          let h2 := <[c1 := obj1]> h1 in
          let stack2 := pop st1 in
          match at_last stack2 with
          | Some lst =>
              '(h3, _) ← Collector.next h2 lst (inr c1);
              Ok (mkState i1 (tokenList s) (ast_body s) stack2 (Some lst)
                    (Some lst) h3)
          | None =>
              Ok (mkState i1 (tokenList s) (ast_body s ++ [n1]) stack2 None
                    None h2)
          end
        else
          Ok (mkState i1 (tokenList s) (ast_body s) st1 (Some n1) (Some c1) h1)
    end = Ok s' → n1 = c1 → ∀ x, x ∈ ast_body s' → finished (heap s') x).
  { clear H. intros c1 st1 n1 i1 H ->.
    destruct (h1 !! c1) as [obj|] eqn:Hobj; [|done].
    destruct (Collector.complete (Collector.fields obj)) eqn:Hc.
    2: { by inversion H; subst. }
    apply bind_Ok in H as (obj1&Hcomp&H).
    pose proof (fields_compose _ _ Hcomp) as Hf.
    assert (H2 : ∀ x, finished h1 x → finished (<[c1 := obj1]> h1) x).
    { intros x Hx. apply finished_insert; [done|]. right. by rewrite Hf. }
    simpl in H. destruct (at_last (pop st1)) as [lst|].
    - apply bind_Ok in H as ([h3 r]&Hn&H). inversion H; subst; simpl.
      intros x Hx. eapply next_finished; [exact Hn|]. by apply H2, H1.
    - inversion H; subst; simpl. intros x Hx.
      apply elem_of_app in Hx as [Hx|Hx]; [by apply H2, H1|].
      apply list_elem_of_singleton in Hx as ->.
      exists obj1. split; [|by rewrite Hf].
      apply list_lookup_insert_eq. by eapply lookup_lt_Some. }
  destruct nc as [c|]; eapply Hgen; try exact H; congruence.
Qed.

Lemma steps_WF n s s' : WF s → steps n s = Some s' → WF s'.
Proof.
  revert s. induction n as [|n IH]; intros s Hwf H; simpl in H.
  - by inversion H; subst.
  - case_bool_decide as Hlt; [|done].
    destruct (lookup_lt_is_Some_2 _ _ Hlt) as [t Ht].
    destruct (iteration_WF s t Hwf Ht) as [E|(s1&E&Hwf1)]; rewrite E in H;
      [done|]. by apply (IH s1).
Qed.

Lemma WF_node s : WF s → node s = collector s.
Proof. intros [_ H]. destruct (collector s); by destruct H. Qed.

Lemma steps_finished n s s' :
  WF s → (∀ x, x ∈ ast_body s → finished (heap s) x) →
  steps n s = Some s' → ∀ x, x ∈ ast_body s' → finished (heap s') x.
Proof.
  revert s. induction n as [|n IH]; intros s Hwf Hb H; simpl in H.
  - by inversion H; subst.
  - case_bool_decide as Hlt; [|done].
    destruct (iteration s) as [s1|] eqn:E; [|done].
    apply (IH s1); [|by eapply iteration_finished, Hb; [|apply WF_node]|done].
    by apply (steps_WF 1 s); [|simpl; rewrite bool_decide_eq_true_2, E].
Qed.

(** The program returned holds one node per address of [this.ast.body]. *)
Lemma ast_nodes s :
  (∀ x, x ∈ ast_body s → finished (heap s) x) →
  Forall2 (node_of_finished (heap s)) (ast_body s) (body (ast s)).
Proof.
  unfold ast. simpl.
  induction (ast_body s) as [|x l IH]; intros H; [constructor|].
  destruct (H x) as (obj&Hobj&Hc); [by left|].
  simpl. rewrite Hobj. simpl. constructor.
  - by exists obj.
  - apply IH. intros y Hy. apply H. by right.
Qed.

(** Claim C3, amended: when the loop reaches the end of the tokens with
    collectors left on the stack, [parser] does not throw.  It returns
    [this.ast], whose body holds, in order, the nodes of the collectors that
    matched their last rule.  The statement under way is an alias collector
    that has not matched its last rule, and neither it nor any other
    collector on the stack is in that body: the unfinished statement is not
    part of the program returned. *)
Theorem unfinished_statement_dropped tokens n s :
  steps n (init tokens) = Some s → length tokens ≤ index s →
  collectorStack s ≠ [] →
  parser tokens = Some (Ok (ast s)) ∧
  (∃ a, unfinished_statement s a) ∧
  (∀ a, a ∈ collectorStack s → a ∉ ast_body s) ∧
  Forall2 (node_of_finished (heap s)) (ast_body s) (body (ast s)).
Proof.
  intros Hs Hend Hstack.
  pose proof (steps_tokenList _ _ _ Hs) as Htl. simpl in Htl.
  pose proof (steps_WF _ _ _ (WF_init tokens) Hs) as [_ Hwf].
  assert (Hfin : ∀ x, x ∈ ast_body s → finished (heap s) x).
  { apply (steps_finished n (init tokens)); [apply WF_init| |done].
    intros x Hx. by apply elem_of_nil in Hx. }
  assert (Hopen : ∀ a, a ∈ collectorStack s →
            ∃ obj, heap s !! a = Some obj ∧
                   Collector.complete (Collector.fields obj) = false).
  { destruct (collector s) as [c|]; [|by destruct Hwf].
    destruct Hwf as [_ [(f&m&->&Hc&Hok)|(a&fa&na&f&m&->&_&Ha&Hoka&_&Hc&Hok)]];
      intros x Hx.
    - apply list_elem_of_singleton in Hx as ->. eexists. split; [done|].
      apply (alias_open _ Hok).
    - apply elem_of_cons in Hx as [->|Hx].
      + eexists. split; [done|]. apply (alias_open _ Hoka).
      + apply list_elem_of_singleton in Hx as ->. eexists. split; [done|].
        apply (string_open _ Hok). }
  split_and!.
  - assert (Hr : reaches (init tokens) (Ok s)).
    { eapply reaches_steps; [done|]. apply reaches_end. by rewrite Htl. }
    by rewrite (reaches_parser _ _ Hr).
  - destruct (collector s) as [c|]; [|by destruct Hwf].
    destruct Hwf as [_ [(f&m&Hst&Hc&Hok)|(a&fa&na&f&m&Hst&_&Ha&Hoka&_)]].
    + exists c, f, m, []. split_and!; [done..|apply (alias_open _ Hok)].
    + exists a, fa, na, [c]. split_and!; [done..|apply (alias_open _ Hoka)].
  - intros a Ha Hin. destruct (Hopen a Ha) as (obj&Hobj&Hc).
    destruct (Hfin a Hin) as (obj'&Hobj'&Hc'). congruence.
  - by apply ast_nodes.
Qed.

Lemma unfinished_statement_dropped_witness :
  ∃ s, steps 4 (init alias_foo) = Some s ∧ collectorStack s = [0] ∧
       (parser alias_foo = Some (Ok (ast s)) ∧
        (∃ a, unfinished_statement s a) ∧
        (∀ a, a ∈ collectorStack s → a ∉ ast_body s) ∧
        Forall2 (node_of_finished (heap s)) (ast_body s) (body (ast s))).
Proof.
  eexists. split; [vm_compute; reflexivity|]. split; [reflexivity|].
  eapply (unfinished_statement_dropped alias_foo 4);
    [vm_compute; reflexivity|simpl; lia|discriminate].
Defined.

End ParserMore.
